(** * stable-error: a shallow embedding of [src/stable-error.ts]

    The development follows the source file top to bottom:
    the JavaScript primitives the code relies on (strings, 32-bit integer
    operators, regular-expression replacement), then [normalizeMessage],
    [filterMetadata], [generateStableId] and [createStableError], and
    finally the properties of the identifier pipeline.

    Strings are sequences of code units.  The embedding uses Rocq's
    [string], so a code unit ranges over 0..255 (the Latin-1 part of
    UTF-16); [toLowerCase], [trim] and the character classes of the
    regular expressions are given for that whole range. *)

From Stdlib Require Import ZArith Lia Bool Ascii String List DecimalString.
From stdpp Require Import gmap strings sorting.

Local Open Scope Z_scope.

(** ** Code units *)

Definition charCode (a : ascii) : Z := Z.of_N (N_of_ascii a).

Definition inRange (lo hi : Z) (a : ascii) : bool :=
  (lo <=? charCode a) && (charCode a <=? hi).

Fixpoint charCodes (s : string) : list Z :=
  match s with
  | EmptyString => []
  | String a s' => charCode a :: charCodes s'
  end.

(** ** 32-bit integer operators

    JavaScript numbers are doubles; every intermediate value of the hash
    loop is an integer far below 2^53, so it is represented exactly and
    [Z] models it.  The bitwise operators first convert their operands
    with ToInt32. *)

Module Int32.

Definition modulus : Z := 2 ^ 32.
Definition half_modulus : Z := 2 ^ 31.

(** ToInt32: reduce modulo 2^32 into [-2^31, 2^31). *)
Definition toInt32 (x : Z) : Z :=
  (x + half_modulus) mod modulus - half_modulus.

(** [a << n] *)
Definition shl (a n : Z) : Z :=
  toInt32 (Z.shiftl (toInt32 a) (Z.land n 31)).

(** [a & b] *)
Definition and (a b : Z) : Z :=
  Z.land (toInt32 a) (toInt32 b).

Definition in_range (x : Z) : Prop := - half_modulus <= x < half_modulus.

End Int32.

(** ** The hash loop of [generateStableId] (lines 100-106)

    [hashStep] is one iteration of the loop body:
    [hash = ((hash << 5) - hash) + char; hash = hash & hash]. *)

Definition hashStep (hash char : Z) : Z :=
  let hash1 := (Int32.shl hash 5 - hash) + char in
  Int32.and hash1 hash1.

Definition hashString (stableString : string) : Z :=
  fold_left hashStep (charCodes stableString) 0.

(** ** [Number.prototype.toString(16)] and [padStart] (line 109) *)

Definition hexDigit (d : Z) : ascii :=
  if d <? 10 then ascii_of_N (Z.to_N (48 + d))
  else ascii_of_N (Z.to_N (87 + d)).

(** Digits are produced from the least significant one; [fuel] bounds the
    number of digits and [toString16] supplies enough of it
    (see [toString16_value]). *)
Fixpoint hexDigits (fuel : nat) (n : Z) (acc : string) : string :=
  match fuel with
  | O => acc
  | S fuel' =>
      let acc' := String (hexDigit (n mod 16)) acc in
      if n / 16 =? 0 then acc' else hexDigits fuel' (n / 16) acc'
  end.

(** [n.toString(16)] for a non-negative integer [n]. *)
Definition toString16 (n : Z) : string :=
  hexDigits (S (Z.to_nat (Z.log2 n))) n "".

Fixpoint repeatChar (a : ascii) (n : nat) : string :=
  match n with
  | O => ""
  | S n' => String a (repeatChar a n')
  end.

(** [s.padStart(targetLength, a)] with a one-character filler. *)
Definition padStart (targetLength : nat) (a : ascii) (s : string) : string :=
  repeatChar a (targetLength - String.length s) +:+ s.

(** [Math.abs(hash).toString(16).padStart(8, '0')] *)
Definition renderId (hash : Z) : string :=
  padStart 8 "0" (toString16 (Z.abs hash)).

(** ** String primitives: [toLowerCase] and [trim] *)

Definition isUpper (a : ascii) : bool :=
  inRange 65 90 a || (inRange 192 222 a && negb (charCode a =? 215)).

Definition toLowerChar (a : ascii) : ascii :=
  if isUpper a then ascii_of_N (Z.to_N (charCode a + 32)) else a.

Fixpoint toLowerCase (s : string) : string :=
  match s with
  | EmptyString => ""
  | String a s' => String (toLowerChar a) (toLowerCase s')
  end.

(** White space and line terminators below U+0100: TAB, LF, VT, FF, CR,
    SPACE and NO-BREAK SPACE.  [trim] and the class [\s] use the same set. *)
Definition isWhiteSpace (a : ascii) : bool :=
  inRange 9 13 a || (charCode a =? 32) || (charCode a =? 160).

Fixpoint trimStart (s : string) : string :=
  match s with
  | EmptyString => ""
  | String a s' => if isWhiteSpace a then trimStart s' else s
  end.

Fixpoint trimEnd (s : string) : string :=
  match s with
  | EmptyString => ""
  | String a s' =>
      match trimEnd s' with
      | EmptyString => if isWhiteSpace a then "" else String a ""
      | t => String a t
      end
  end.

Definition trim (s : string) : string := trimEnd (trimStart s).

(** ** Regular expressions

    The fragment of the regular-expression language used by
    [normalizeMessage]: character classes, the assertion [\b],
    concatenation, the greedy quantifiers [?], [{n}] and, on a character
    class, [+].  [rmatch] is a backtracking matcher in continuation-passing
    style: the continuation receives the code unit before the current
    position (needed by [\b]) and the rest of the input. *)

Module Regex.

Inductive regex : Type :=
| REps
| RChar (cls : ascii -> bool)
| RBoundary
| RSeq (r1 r2 : regex)
| ROpt (r : regex)
| RRepeat (n : nat) (r : regex)
| RPlus (cls : ascii -> bool).

Definition cont : Type := option ascii -> string -> option string.

(** [\d] *)
Definition digit : ascii -> bool := inRange 48 57.

(** [\w], which decides [\b] *)
Definition wordChar (a : ascii) : bool :=
  inRange 97 122 a || inRange 65 90 a || inRange 48 57 a || (charCode a =? 95).

(** [\s] *)
Definition space : ascii -> bool := isWhiteSpace.

(** A literal character, and a literal letter under the [i] flag. *)
Definition lit (c : ascii) : ascii -> bool := Ascii.eqb c.
Definition lit_i (lower upper : ascii) (a : ascii) : bool :=
  Ascii.eqb lower a || Ascii.eqb upper a.

(** [[0-9a-f]] under the [i] flag *)
Definition hex_i (a : ascii) : bool :=
  inRange 48 57 a || inRange 97 102 a || inRange 65 70 a.

Definition isWordAt (o : option ascii) : bool :=
  match o with
  | Some a => wordChar a
  | None => false
  end.

Definition first (s : string) : option ascii :=
  match s with
  | EmptyString => None
  | String a _ => Some a
  end.

(** Greedy iteration of a character class: take one more character if
    possible, and fall back to stopping here when the rest fails. *)
Fixpoint many (cls : ascii -> bool) (k : cont) (prev : option ascii) (s : string)
  : option string :=
  match s with
  | String a s' =>
      if cls a then
        match many cls k (Some a) s' with
        | Some r => Some r
        | None => k prev s
        end
      else k prev s
  | EmptyString => k prev s
  end.

Fixpoint rmatch (r : regex) (k : cont) (prev : option ascii) (s : string)
  {struct r} : option string :=
  match r with
  | REps => k prev s
  | RChar cls =>
      match s with
      | String a s' => if cls a then k (Some a) s' else None
      | EmptyString => None
      end
  | RBoundary =>
      if xorb (isWordAt prev) (isWordAt (first s)) then k prev s else None
  | RSeq r1 r2 => rmatch r1 (rmatch r2 k) prev s
  | ROpt r1 =>
      match rmatch r1 k prev s with
      | Some r => Some r
      | None => k prev s
      end
  | RRepeat n r1 => Nat.iter n (rmatch r1) k prev s
  | RPlus cls =>
      match s with
      | String a s' => if cls a then many cls k (Some a) s' else None
      | EmptyString => None
      end
  end.

(** A match attempt at the current position: the rest of the input
    after the match, if there is one. *)
Definition matchAt (re : regex) (prev : option ascii) (s : string) : option string :=
  rmatch re (fun _ rest => Some rest) prev s.

(** [s.replace(re, repl)] for a global [re] and a replacement text
    without [$] patterns.  The scan is a recursion on the input: after a
    match of [S n] characters, [n] further characters are skipped. *)
Fixpoint replaceFrom (re : regex) (repl : string) (skip : nat)
    (prev : option ascii) (s : string) : string :=
  match s with
  | EmptyString =>
      match skip, matchAt re prev "" with
      | O, Some _ => repl
      | _, _ => ""
      end
  | String a s' =>
      match skip with
      | S n => replaceFrom re repl n (Some a) s'
      | O =>
          match matchAt re prev s with
          | Some rest =>
              match (String.length s - String.length rest)%nat with
              | O => repl +:+ String a (replaceFrom re repl 0 (Some a) s')
              | S n => repl +:+ replaceFrom re repl n (Some a) s'
              end
          | None => String a (replaceFrom re repl 0 (Some a) s')
          end
      end
  end.

Definition replaceAll (re : regex) (repl : string) (s : string) : string :=
  replaceFrom re repl 0 None s.

Definition rseq (rs : list regex) : regex := fold_right RSeq REps rs.

End Regex.

Import Regex.

(** ** [normalizeMessage] (lines 34-51) *)

(** [/[0-9a-f]{8}-[0-9a-f]{4}-[0-9a-f]{4}-[0-9a-f]{4}-[0-9a-f]{12}/gi] *)
Definition uuidRe : regex :=
  rseq [RRepeat 8 (RChar hex_i); RChar (lit "-");
        RRepeat 4 (RChar hex_i); RChar (lit "-");
        RRepeat 4 (RChar hex_i); RChar (lit "-");
        RRepeat 4 (RChar hex_i); RChar (lit "-");
        RRepeat 12 (RChar hex_i)].

(** [/\d{4}-\d{2}-\d{2}T\d{2}:\d{2}:\d{2}(\.\d{3})?Z?/gi] *)
Definition timestampRe : regex :=
  rseq [RRepeat 4 (RChar digit); RChar (lit "-");
        RRepeat 2 (RChar digit); RChar (lit "-");
        RRepeat 2 (RChar digit); RChar (lit_i "t" "T");
        RRepeat 2 (RChar digit); RChar (lit ":");
        RRepeat 2 (RChar digit); RChar (lit ":");
        RRepeat 2 (RChar digit);
        ROpt (RSeq (RChar (lit ".")) (RRepeat 3 (RChar digit)));
        ROpt (RChar (lit_i "z" "Z"))].

(** [/\b\d{13}\b/g] *)
Definition timestampMsRe : regex :=
  rseq [RBoundary; RRepeat 13 (RChar digit); RBoundary].

(** [/\b\d+\b/g] *)
Definition numberRe : regex :=
  rseq [RBoundary; RPlus digit; RBoundary].

(** [/\s+/g] *)
Definition spacesRe : regex := RPlus space.

Definition normalizeMessage (message : string) : string :=
  if String.eqb message "" then ""
  else
    let normalized := trim (toLowerCase message) in
    let normalized := replaceAll uuidRe "UUID" normalized in
    let normalized := replaceAll timestampRe "TIMESTAMP" normalized in
    let normalized := replaceAll timestampMsRe "TIMESTAMP_MS" normalized in
    let normalized := replaceAll numberRe "NUMBER" normalized in
    let normalized := replaceAll spacesRe " " normalized in
    normalized.

(** ** Metadata values *)

(** [Metadata = Record<string, unknown>].  The values are the primitive
    JavaScript values; a [VNumber] is an integer-valued number in the range
    where [String] prints plain decimal digits. *)
Inductive value : Type :=
| VUndefined
| VNull
| VBool (b : bool)
| VNumber (n : Z)
| VString (s : string).

Global Instance value_eq_dec : EqDecision value.
Proof. solve_decision. Defined.

Definition decimal (n : Z) : string :=
  DecimalString.NilZero.string_of_int (Z.to_int n).

(** [String(v)] *)
Definition toString (v : value) : string :=
  match v with
  | VUndefined => "undefined"
  | VNull => "null"
  | VBool true => "true"
  | VBool false => "false"
  | VNumber n => decimal n
  | VString s => s
  end.

Abbreviation Metadata := (gmap string value).

(** ** [filterMetadata] (lines 56-71)

    The argument is [None] when the caller passes [null], [undefined] or
    something that is not an object.  The loop over [Object.entries] that
    copies the accepted entries into a fresh object is a map filter. *)

Definition allowedKeys : gset string :=
  list_to_set ["type"; "code"; "field"; "operation"; "service"; "component"].

Definition stableEntry (kv : string * value) : Prop :=
  kv.1 ∈ allowedKeys ∧ kv.2 ≠ VUndefined ∧ kv.2 ≠ VNull.

Global Instance stableEntry_dec kv : Decision (stableEntry kv).
Proof. unfold stableEntry. apply _. Defined.

Definition filterMetadata (metadata : option Metadata) : Metadata :=
  match metadata with
  | None => ∅
  | Some m => filter stableEntry m
  end.

(** ** [generateStableId] (lines 76-110) *)

(** [Object.keys(filtered).sort()]: the default comparison orders strings
    by their code units. *)
Definition sortedKeysOf (filtered : Metadata) : list string :=
  merge_sort String.le (map fst (map_to_list filtered)).

(** [filtered[key]] *)
Definition getProp (o : Metadata) (key : string) : value :=
  default VUndefined (o !! key).

(** The string [stableString] built on lines 82-98. *)
Definition stableString (message : string) (category : option string)
    (metadata : option Metadata) : string :=
  let parts :=
    ["message:" +:+ normalizeMessage message;
     "category:" +:+ trim (toLowerCase (default "" category))] in
  let filtered := filterMetadata metadata in
  let sortedKeys := sortedKeysOf filtered in
  let parts :=
    if (0 <? length sortedKeys)%nat then
      let metadataParts :=
        map (fun key => key +:+ ":" +:+ trim (toLowerCase (toString (getProp filtered key))))
            sortedKeys in
      parts ++ ["metadata:" +:+ String.concat "," metadataParts]
    else parts in
  String.concat "|" parts.

Definition generateStableId (message : string) (category : option string)
    (metadata : option Metadata) : string :=
  renderId (hashString (stableString message category metadata)).

(** ** [createStableError] (lines 117-180) *)

Inductive ErrorSeverity : Type := low | medium | high | critical.

Global Instance ErrorSeverity_eq_dec : EqDecision ErrorSeverity.
Proof. solve_decision. Defined.

Module Options.
(** [StableErrorOptions]; an omitted option is [None]. *)
Record t : Type := mk {
  category : option string;
  metadata : option Metadata;
  severity : option ErrorSeverity;
  statusCode : option Z
}.
(** The default argument [options = {}]. *)
Definition empty : t := mk None None None None.
End Options.

Module JsError.
(** What [createStableError] reads from an [Error] argument. *)
Record t : Type := mk {
  message : string;
  name : string;
  stack : option string
}.
End JsError.

Inductive messageOrError : Type :=
| OfString (s : string)
| OfError (e : JsError.t).

Module Host.
(** What the call reads from its environment: the clock
    ([new Date().toISOString()]) and the stack the host puts on the
    object made by [new Error(message)]. *)
Record t : Type := mk {
  now : string;
  errorStack : string -> option string
}.
End Host.

Module StableError.
(** The object returned by [createStableError]. *)
Record t : Type := mk {
  name : string;
  message : string;
  stack : option string;
  id : string;
  category : string;
  metadata : Metadata;
  severity : ErrorSeverity;
  timestamp : string;
  statusCode : Z
}.
End StableError.

(** [a || b] on strings and numbers: the right operand replaces a missing
    or falsy left operand. *)
Definition orString (a : option string) (b : string) : string :=
  match a with
  | Some s => if String.eqb s "" then b else s
  | None => b
  end.

Definition orNumber (a : option Z) (b : Z) : Z :=
  match a with
  | Some n => if n =? 0 then b else n
  | None => b
  end.

Definition truthyString (a : option string) : bool :=
  match a with
  | Some s => negb (String.eqb s "")
  | None => false
  end.

Definition optionalString (a : option string) : value :=
  match a with
  | Some s => VString s
  | None => VUndefined
  end.

Definition createStableError (host : Host.t) (src : messageOrError)
    (options : Options.t) : StableError.t :=
  let '(message, originalStack, originalName) :=
    match src with
    | OfString s => (s, None, "StableError")
    | OfError e => (JsError.message e, JsError.stack e, JsError.name e)
    end in
  let category := orString (Options.category options) "general" in
  let statusCode := orNumber (Options.statusCode options) 500 in
  let metadata :=
    let base := default ∅ (Options.metadata options) in
    match src with
    | OfString _ => base
    | OfError _ =>
        <["originalStack" := optionalString originalStack]>
          (<["originalName" := VString originalName]> base)
    end in
  let severity := default medium (Options.severity options) in
  let timestamp := Host.now host in
  let id := generateStableId message (Some category) (Some metadata) in
  StableError.mk
    "StableError"
    message
    (if truthyString originalStack then originalStack
     else Host.errorStack host message)
    id category metadata severity timestamp statusCode.

(** ** [toJSON] (lines 166-177) *)

(** The values found in the object literal that [toJSON] returns. *)
Inductive jsonField : Type :=
| JString (s : string)
| JNumber (n : Z)
| JSeverity (s : ErrorSeverity)
| JMetadata (m : Metadata)
| JUndefined.

Definition optionalField (a : option string) : jsonField :=
  match a with
  | Some s => JString s
  | None => JUndefined
  end.

(** The object literal, property by property, in source order. *)
Definition toJSON (this : StableError.t) : list (string * jsonField) :=
  [("id", JString (StableError.id this));
   ("message", JString (StableError.message this));
   ("category", JString (StableError.category this));
   ("metadata", JMetadata (StableError.metadata this));
   ("severity", JSeverity (StableError.severity this));
   ("timestamp", JString (StableError.timestamp this));
   ("statusCode", JNumber (StableError.statusCode this));
   ("stack", optionalField (StableError.stack this))].

Fixpoint getField (o : list (string * jsonField)) (key : string) : option jsonField :=
  match o with
  | [] => None
  | (k, v) :: o' => if String.eqb k key then Some v else getField o' key
  end.

(** ** Auxiliary definitions used to state the properties *)

(** The update rule in the words of the specification,
    [acc = (acc*31 - acc + c)] truncated to a 32-bit signed integer, and the
    hash it would define. *)
Definition specHashStep (acc c : Z) : Z := Int32.toInt32 (acc * 31 - acc + c).

Definition specHashString (s : string) : Z :=
  fold_left specHashStep (charCodes s) 0.

(** The polynomial hash with multiplier 31, wrapped at every step. *)
Definition mul31Step (acc c : Z) : Z := Int32.toInt32 (acc * 31 + c).

(** The pattern [[0-9a-f]]. *)
Definition isLowerHex (a : ascii) : bool := inRange 48 57 a || inRange 97 102 a.

Fixpoint allChars (p : ascii -> bool) (s : string) : bool :=
  match s with
  | EmptyString => true
  | String a s' => p a && allChars p s'
  end.

(** The number a string of lowercase hexadecimal digits denotes. *)
Definition hexDigitValue (a : ascii) : Z :=
  if inRange 48 57 a then charCode a - 48 else charCode a - 87.

Fixpoint hexValueFrom (acc : Z) (s : string) : Z :=
  match s with
  | EmptyString => acc
  | String a s' => hexValueFrom (acc * 16 + hexDigitValue a) s'
  end.

Definition hexValue (s : string) : Z := hexValueFrom 0 s.

(** The canonical string in the words of the specification: the message
    part, the category part and, when some allow-listed key has a value that
    is neither absent nor null, the metadata part over those keys in
    ascending order. *)
Definition sortedAllowedKeys : list string :=
  ["code"; "component"; "field"; "operation"; "service"; "type"].

Definition survives (m : Metadata) (key : string) : Prop :=
  exists v, m !! key = Some v /\ v <> VUndefined /\ v <> VNull.

Global Instance survives_dec m key : Decision (survives m key).
Proof.
  unfold survives. destruct (m !! key) as [v|] eqn:Hk.
  - destruct (decide (v <> VUndefined /\ v <> VNull)) as [Hv|Hv].
    + left. exists v. split; [reflexivity | exact Hv].
    + right. intros [v' [Heq Hv']]. inversion Heq; subst. exact (Hv Hv').
  - right. intros [v' [Heq _]]. discriminate Heq.
Defined.

Definition specKeys (m : Metadata) : list string :=
  filter (survives m) sortedAllowedKeys.

Definition specEntry (m : Metadata) (key : string) : string :=
  key +:+ ":" +:+ trim (toLowerCase (toString (getProp m key))).

Definition specStableString (message : string) (category : option string)
    (metadata : option Metadata) : string :=
  let m := default ∅ metadata in
  "message:" +:+ normalizeMessage message +:+
  "|category:" +:+ trim (toLowerCase (default "" category)) +:+
  match specKeys m with
  | [] => ""
  | keys => "|metadata:" +:+ String.concat "," (map (specEntry m) keys)
  end.

(** The message a call of [createStableError] is about. *)
Definition sourceMessage (src : messageOrError) : string :=
  match src with
  | OfString s => s
  | OfError e => JsError.message e
  end.

(** Two calls that differ in everything the identifier must ignore: the
    clock and the host stack, the kind of source, severity, status code and
    the metadata entries outside the allow-list. *)
Module Sample.

Definition host1 : Host.t :=
  Host.mk "2023-01-01T10:00:00.000Z" (fun _ => Some "Error: at first").

Definition host2 : Host.t :=
  Host.mk "2024-06-30T23:59:59.999Z" (fun _ => None).

Definition src1 : messageOrError := OfString "User not found".

Definition src2 : messageOrError :=
  OfError (JsError.mk "User not found" "TypeError" (Some "TypeError: at second")).

Definition metadata1 : Metadata :=
  <["field" := VString "email"]> (<["type" := VString "validation"]>
  (<["timestamp" := VString "2023-01-01"]> (<["userId" := VNumber 123]> ∅))).

Definition metadata2 : Metadata :=
  <["field" := VString "email"]> (<["type" := VString "validation"]>
  (<["timestamp" := VString "2023-12-31"]> (<["userId" := VNumber 456]> ∅))).

Definition options1 : Options.t :=
  Options.mk (Some "validation") (Some metadata1) (Some high) (Some 400).

Definition options2 : Options.t :=
  Options.mk (Some "validation") (Some metadata2) None None.

End Sample.

(** A source error whose stack is the empty string. *)
Definition emptyStackError : JsError.t := JsError.mk "boom" "TypeError" (Some "").

(** The property names of the object [toJSON] returns. *)
Definition jsonKeys : list string :=
  ["id"; "message"; "category"; "metadata"; "severity"; "timestamp";
   "statusCode"; "stack"].

(** The least number of characters a match of a regular expression
    consumes, and the characters a match can consume. *)
Fixpoint minLen (r : regex) : nat :=
  match r with
  | REps | RBoundary | ROpt _ => 0
  | RChar _ | RPlus _ => 1
  | RSeq r1 r2 => minLen r1 + minLen r2
  | RRepeat n r1 => n * minLen r1
  end.

Fixpoint alphabet (r : regex) (a : ascii) : bool :=
  match r with
  | REps | RBoundary => false
  | RChar cls | RPlus cls => cls a
  | RSeq r1 r2 => alphabet r1 a || alphabet r2 a
  | ROpt r1 | RRepeat _ r1 => alphabet r1 a
  end.

(** The last character of [s], or [prev] when [s] is empty: the code unit
    before the position that follows [s]. *)
Fixpoint lastOr (prev : option ascii) (s : string) : option ascii :=
  match s with
  | EmptyString => prev
  | String a s' => lastOr (Some a) s'
  end.

Fixpoint hasBoundary (r : regex) : bool :=
  match r with
  | REps | RChar _ | RPlus _ => false
  | RBoundary => true
  | RSeq r1 r2 => hasBoundary r1 || hasBoundary r2
  | ROpt r1 | RRepeat _ r1 => hasBoundary r1
  end.

(** A character delimits the matches of [r] when no match can contain it
    and [\b] cannot tell it from the end of the input. *)
Definition delimits (r : regex) (c : ascii) : bool :=
  negb (alphabet r c) && (negb (hasBoundary r) || negb (wordChar c)).

(** Matching [q ++ c ++ rest] and matching [q] alone have the same outcome:
    both fail, or both succeed leaving the same part of [q]. *)
Definition sameMatch (c : ascii) (rest : string) (p : string)
    (x y : option string) : Prop :=
  (x = None /\ y = None) \/
  exists q, (String.length q <= String.length p)%nat /\
            x = Some (q +:+ String c rest) /\ y = Some q.

Definition sameCont (c : ascii) (rest : string) (p : string) (k1 k2 : cont) : Prop :=
  forall prev q, (String.length q <= String.length p)%nat ->
    sameMatch c rest q (k1 prev (q +:+ String c rest)) (k2 prev q).

(** Strings that match a sequence of character classes, one character per
    class. *)
Fixpoint matchesClasses (cs : list (ascii -> bool)) (s : string) : bool :=
  match cs, s with
  | [], EmptyString => true
  | cls :: cs', String a s' => cls a && matchesClasses cs' s'
  | _, _ => false
  end.

(** The shape [YYYY-MM-DDThh:mm:ss], with the letter in either case. *)
Definition instantClasses : list (ascii -> bool) :=
  [digit; digit; digit; digit; lit "-"; digit; digit; lit "-"; digit; digit;
   lit_i "t" "T"; digit; digit; lit ":"; digit; digit; lit ":"; digit; digit].

(** No fractional seconds, or a dot and exactly three digits. *)
Definition isFraction (s : string) : bool :=
  String.eqb s "" || matchesClasses [lit "."; digit; digit; digit] s.

(** No zone designator, or the letter Z in either case. *)
Definition isZone (s : string) : bool :=
  String.eqb s "" || String.eqb s "z" || String.eqb s "Z".

(** The end of the text, or a character that delimits the matches of [r]. *)
Definition delimitedBy (r : regex) (o : option ascii) : bool :=
  match o with
  | None => true
  | Some c => delimits r c
  end.

(** No match starts inside [m] when [B] follows it. *)
Fixpoint inert (re : regex) (B m : string) : Prop :=
  match m with
  | EmptyString => True
  | String a m' =>
      (forall prev, matchAt re prev (String a (m' +:+ B)) = None) /\ inert re B m'
  end.

(** The rules of [normalizeMessage] that follow lowercasing and trimming. *)
Definition normalizeRules (s : string) : string :=
  replaceAll spacesRe " "
    (replaceAll numberRe "NUMBER"
       (replaceAll timestampMsRe "TIMESTAMP_MS"
          (replaceAll timestampRe "TIMESTAMP"
             (replaceAll uuidRe "UUID" s)))).

(** A character that belongs to none of the patterns for UUIDs, timestamps
    and numbers and that bounds a word: anything but a letter, a digit, an
    underscore, a hyphen, a colon and a dot. *)
Definition isSeparator (c : ascii) : bool :=
  negb (wordChar c) && negb (lit "-" c) && negb (lit ":" c) && negb (lit "." c).

Definition separatedBy (o : option ascii) : bool :=
  match o with
  | None => true
  | Some c => isSeparator c
  end.


(** ** Auxiliary definitions for the further properties *)

(** The polynomial [c0*31^(n-1) + ... + c(n-1)] over the integers, without
    any truncation, started from [acc]. *)
Definition polynomialFrom (acc : Z) (codes : list Z) : Z :=
  fold_left (fun a c => a * 31 + c) codes acc.

(** Equality modulo 2^32. *)
Definition congruent32 (x y : Z) : Prop := exists q, x = y + q * Int32.modulus.

(** A stable error seen as the [Error] it is, and the options that repeat
    its own fields. *)
Definition asError (r : StableError.t) : JsError.t :=
  JsError.mk (StableError.message r) (StableError.name r) (StableError.stack r).

Definition optionsOf (r : StableError.t) : Options.t :=
  Options.mk (Some (StableError.category r)) (Some (StableError.metadata r))
             (Some (StableError.severity r)) (Some (StableError.statusCode r)).


(** The form in which a text enters the canonical string: lowercased and
    trimmed. *)
Definition canonText (s : string) : string := trim (toLowerCase s).

(** The form in which the entry of a key enters the canonical string, if it
    does. *)
Definition canonEntry (m : Metadata) (key : string) : option string :=
  match m !! key with
  | Some VUndefined | Some VNull | None => None
  | Some v => Some (canonText (toString v))
  end.


(** Inputs that look different and get the same identifier. *)
Module Forms.

Definition message1 : string := "  USER Not Found ".
Definition message2 : string := "user not found".

Definition category1 : option string := Some " Validation ".
Definition category2 : option string := Some "validation".

Definition metadata1 : Metadata :=
  <["code" := VNumber 404]> (<["field" := VNull]> (<["userId" := VNumber 7]> ∅)).

Definition metadata2 : Metadata := <["code" := VString "404 "]> ∅.

End Forms.

(** Every maximal run of white space becomes one space and every other
    character is copied; [inRun] tells that the character before was white
    space. *)
Fixpoint collapseFrom (inRun : bool) (s : string) : string :=
  match s with
  | EmptyString => ""
  | String a s' =>
      if isWhiteSpace a then
        if inRun then collapseFrom true s' else String " " (collapseFrom true s')
      else String a (collapseFrom false s')
  end.

Definition collapseSpaces (s : string) : string := collapseFrom false s.

(** The only white space is the space character, and no two spaces are
    adjacent; [afterSpace] tells that the character before was a space. *)
Fixpoint singleSpacedFrom (afterSpace : bool) (s : string) : bool :=
  match s with
  | EmptyString => true
  | String a s' =>
      if isWhiteSpace a then
        Ascii.eqb a " " && negb afterSpace && singleSpacedFrom true s'
      else singleSpacedFrom false s'
  end.

Definition singleSpaced (s : string) : bool := singleSpacedFrom false s.

(** White space at an end of a text. *)
Definition isSpaceAt (o : option ascii) : bool :=
  match o with
  | Some a => isWhiteSpace a
  | None => false
  end.


(** No match starts inside [m] when [prev] precedes it and [B] follows it. *)
Fixpoint inertAfter (re : regex) (B : string) (prev : option ascii) (m : string) : Prop :=
  match m with
  | EmptyString => True
  | String a m' =>
      matchAt re prev (String a (m' +:+ B)) = None /\ inertAfter re B (Some a) m'
  end.

(** Text without a hyphen. *)
Definition noHyphen (s : string) : bool := allChars (fun a => negb (lit "-" a)) s.

(** The shape of a UUID: groups of 8, 4, 4, 4 and 12 hexadecimal digits in
    either case, joined by hyphens. *)
Definition uuidClasses : list (ascii -> bool) :=
  repeat hex_i 8 ++ [lit "-"] ++ repeat hex_i 4 ++ [lit "-"] ++
  repeat hex_i 4 ++ [lit "-"] ++ repeat hex_i 4 ++ [lit "-"] ++ repeat hex_i 12.


(** A character that is neither a digit nor a hyphen. *)
Definition plainChar (a : ascii) : bool := negb (digit a) && negb (lit "-" a).

(** The part of the canonical string that lists the metadata. *)
Definition metadataText (m : Metadata) : string :=
  match specKeys m with
  | [] => ""
  | keys => "|metadata:" +:+ String.concat "," (map (specEntry m) keys)
  end.

Definition notUpper (a : ascii) : bool := negb (isUpper a).

(** * Properties *)

(** ** The test vectors of [stable-error.test.ts] *)

Example normalize_basic :
  normalizeMessage "User not found" = "user not found" /\
  normalizeMessage "  USER NOT FOUND  " = "user not found".
Proof. split; reflexivity. Qed.

Example normalize_numbers :
  normalizeMessage "User 123 not found" = "user NUMBER not found" /\
  normalizeMessage "User 456 not found" = "user NUMBER not found" /\
  normalizeMessage "Error code 404" = "error code NUMBER".
Proof. repeat split; reflexivity. Qed.

Example normalize_uuid :
  normalizeMessage "User 550e8400-e29b-41d4-a716-446655440000 not found"
  = "user UUID not found".
Proof. reflexivity. Qed.

Example normalize_spaces :
  normalizeMessage "User   123   not   found" = "user NUMBER not found" /\
  normalizeMessage "" = "".
Proof. split; reflexivity. Qed.

Example filter_allowed_keys :
  filterMetadata
    (Some (<["type" := VString "validation"]> (<["field" := VString "email"]>
          (<["userId" := VNumber 123]> (<["timestamp" := VString "2023-01-01"]>
          (<["sessionId" := VString "abc123"]> ∅))))))
  = <["type" := VString "validation"]> (<["field" := VString "email"]> ∅) /\
  filterMetadata (Some ∅) = ∅ /\ filterMetadata None = ∅.
Proof. repeat split; vm_compute; reflexivity. Qed.

Example filter_null_and_undefined :
  filterMetadata
    (Some (<["type" := VString "validation"]> (<["field" := VNull]>
          (<["operation" := VUndefined]> (<["service" := VString "api"]> ∅)))))
  = <["type" := VString "validation"]> (<["service" := VString "api"]> ∅).
Proof. vm_compute. reflexivity. Qed.

Example ids_differ :
  generateStableId "User not found" (Some "validation") (Some ∅) <>
  generateStableId "User found" (Some "validation") (Some ∅) /\
  generateStableId "User not found" (Some "validation") (Some ∅) <>
  generateStableId "User not found" (Some "database") (Some ∅) /\
  generateStableId "User not found" (Some "validation")
    (Some (<["field" := VString "email"]> ∅)) <>
  generateStableId "User not found" (Some "validation")
    (Some (<["field" := VString "username"]> ∅)).
Proof. repeat split; vm_compute; congruence. Qed.

Example ids_collapse_uuids :
  generateStableId "User 550e8400-e29b-41d4-a716-446655440000 not found"
    (Some "test") (Some ∅) =
  generateStableId "User 6ba7b810-9dad-11d1-80b4-00c04fd430c8 not found"
    (Some "test") (Some ∅).
Proof. vm_compute. reflexivity. Qed.

(** ** The 32-bit operators *)

Section Int32Facts.

Import Int32.

Lemma toInt32_range x : in_range (toInt32 x).
Proof.
  unfold in_range, toInt32, modulus, half_modulus.
  pose proof (Z.mod_pos_bound (x + 2 ^ 31) (2 ^ 32)). lia.
Qed.

(** ToInt32 only depends on the residue modulo 2^32. *)
Lemma toInt32_congr x y : (x - y) mod modulus = 0 -> toInt32 x = toInt32 y.
Proof.
  unfold toInt32, modulus, half_modulus. intros H.
  apply Z.mod_divide in H; [|lia]. destruct H as [q Hq].
  replace (x + 2 ^ 31) with (y + 2 ^ 31 + q * 2 ^ 32) by lia.
  now rewrite Z.mod_add by lia.
Qed.

Lemma toInt32_residue x : (toInt32 x - x) mod modulus = 0.
Proof.
  unfold toInt32, modulus, half_modulus.
  rewrite (Z.mod_eq (x + 2 ^ 31) (2 ^ 32)) by lia.
  replace (x + 2 ^ 31 - 2 ^ 32 * ((x + 2 ^ 31) / 2 ^ 32) - 2 ^ 31 - x)
    with (- ((x + 2 ^ 31) / 2 ^ 32) * 2 ^ 32) by lia.
  apply Z.mod_mul. lia.
Qed.

Lemma and_diag x : and x x = toInt32 x.
Proof. unfold and. apply Z.land_diag. Qed.

Lemma shl_5 x : (shl x 5 - x * 32) mod modulus = 0.
Proof.
  unfold shl. change (Z.land 5 31) with 5. rewrite Z.shiftl_mul_pow2 by lia.
  change (2 ^ 5) with 32.
  pose proof (toInt32_residue (toInt32 x * 32)) as H1.
  pose proof (toInt32_residue x) as H2.
  apply Z.mod_divide in H1; [|unfold modulus; lia].
  apply Z.mod_divide in H2; [|unfold modulus; lia].
  destruct H1 as [q1 H1], H2 as [q2 H2].
  replace (toInt32 (toInt32 x * 32) - x * 32)
    with ((q1 + 32 * q2) * modulus) by lia.
  apply Z.mod_mul. unfold modulus; lia.
Qed.

End Int32Facts.

(** ** The hash loop *)

(** One iteration multiplies the accumulator by 31, adds the code unit and
    wraps to 32 bits. *)
Lemma hashStep_mul31 hash char :
  hashStep hash char = Int32.toInt32 (hash * 31 + char).
Proof.
  unfold hashStep. cbv zeta. rewrite and_diag. apply toInt32_congr.
  pose proof (shl_5 hash) as H.
  apply Z.mod_divide in H; [|unfold Int32.modulus; lia]. destruct H as [q Hq].
  replace (Int32.shl hash 5 - hash + char - (hash * 31 + char))
    with (q * Int32.modulus) by lia.
  apply Z.mod_mul. unfold Int32.modulus; lia.
Qed.

Lemma hashStep_range hash char : Int32.in_range (hashStep hash char).
Proof. rewrite hashStep_mul31. apply toInt32_range. Qed.

Lemma fold_hashStep_range codes acc :
  Int32.in_range acc -> Int32.in_range (fold_left hashStep codes acc).
Proof.
  revert acc. induction codes as [|c codes IH]; intros acc Hacc; simpl.
  - exact Hacc.
  - apply IH, hashStep_range.
Qed.

Lemma hashString_range s : Int32.in_range (hashString s).
Proof.
  apply fold_hashStep_range. unfold Int32.in_range, Int32.half_modulus. lia.
Qed.

Lemma fold_left_ext_step (f g : Z -> Z -> Z) codes acc :
  (forall a c, f a c = g a c) -> fold_left f codes acc = fold_left g codes acc.
Proof.
  intros Hfg. revert acc. induction codes as [|c codes IH]; intros acc; simpl.
  - reflexivity.
  - rewrite Hfg. apply IH.
Qed.

(** ** Hexadecimal rendering *)

Lemma length_append (s1 s2 : string) :
  String.length (s1 +:+ s2) = (String.length s1 + String.length s2)%nat.
Proof. induction s1 as [|a s1 IH]; simpl; [reflexivity | now rewrite IH]. Qed.

Lemma length_repeatChar a n : String.length (repeatChar a n) = n.
Proof. induction n as [|n IH]; simpl; [reflexivity | now rewrite IH]. Qed.

Lemma allChars_append p s1 s2 :
  allChars p (s1 +:+ s2) = allChars p s1 && allChars p s2.
Proof.
  induction s1 as [|a s1 IH]; simpl; [reflexivity|].
  now rewrite IH, andb_assoc.
Qed.

Lemma allChars_repeatChar p a n : p a = true -> allChars p (repeatChar a n) = true.
Proof. intros Ha. induction n as [|n IH]; simpl; [reflexivity | now rewrite Ha, IH]. Qed.

Lemma small_cases d :
  0 <= d < 16 ->
  d = 0 \/ d = 1 \/ d = 2 \/ d = 3 \/ d = 4 \/ d = 5 \/ d = 6 \/ d = 7 \/
  d = 8 \/ d = 9 \/ d = 10 \/ d = 11 \/ d = 12 \/ d = 13 \/ d = 14 \/ d = 15.
Proof. lia. Qed.

Lemma hexDigit_lower d : 0 <= d < 16 -> isLowerHex (hexDigit d) = true.
Proof.
  intros Hd. destruct (small_cases d Hd) as
    [->|[->|[->|[->|[->|[->|[->|[->|[->|[->|[->|[->|[->|[->|[->| ->]]]]]]]]]]]]]]];
    reflexivity.
Qed.

Lemma hexDigit_value d : 0 <= d < 16 -> hexDigitValue (hexDigit d) = d.
Proof.
  intros Hd. destruct (small_cases d Hd) as
    [->|[->|[->|[->|[->|[->|[->|[->|[->|[->|[->|[->|[->|[->|[->| ->]]]]]]]]]]]]]]];
    reflexivity.
Qed.

(** The digits are lowercase hexadecimal, whatever the fuel. *)
Lemma hexDigits_lower fuel n acc :
  allChars isLowerHex acc = true ->
  allChars isLowerHex (hexDigits fuel n acc) = true.
Proof.
  revert n acc. induction fuel as [|fuel IH]; intros n acc Hacc; simpl.
  - exact Hacc.
  - assert (allChars isLowerHex (String (hexDigit (n mod 16)) acc) = true) as H.
    { simpl. rewrite Hacc, hexDigit_lower; [reflexivity|].
      apply Z.mod_pos_bound. lia. }
    destruct (n / 16 =? 0); [exact H | now apply IH].
Qed.

(** A number below [16^k] has at most [k] digits. *)
Lemma hexDigits_length fuel k n acc :
  0 <= n < 16 ^ Z.of_nat (S k) ->
  (String.length (hexDigits (S fuel) n acc) <= S k + String.length acc)%nat.
Proof.
  revert k n acc. induction fuel as [|fuel IH]; intros k n acc Hn.
  - simpl. destruct (n / 16 =? 0); simpl; lia.
  - cbn [hexDigits]. destruct (n / 16 =? 0) eqn:Hq.
    + simpl. lia.
    + apply Z.eqb_neq in Hq.
      destruct k as [|k].
      * exfalso. apply Hq. apply Z.div_small. change (16 ^ Z.of_nat 1) with 16 in Hn. lia.
      * specialize (IH k (n / 16) (String (hexDigit (n mod 16)) acc)).
        cbn [hexDigits] in IH. cbn [String.length] in IH.
        assert (0 <= n / 16 < 16 ^ Z.of_nat (S k)) as Hn'.
        { split; [apply Z.div_pos; lia|].
          apply Z.div_lt_upper_bound; [lia|].
          replace (Z.of_nat (S (S k))) with (1 + Z.of_nat (S k)) in Hn by lia.
          rewrite Z.pow_add_r in Hn by lia. change (16 ^ 1) with 16 in Hn. lia. }
        specialize (IH Hn'). lia.
Qed.

Lemma hexDigits_nonempty fuel n acc :
  (1 <= String.length (hexDigits (S fuel) n acc))%nat.
Proof.
  revert n acc. induction fuel as [|fuel IH]; intros n acc.
  - simpl. destruct (n / 16 =? 0); simpl; lia.
  - cbn [hexDigits]. destruct (n / 16 =? 0); [simpl; lia|].
    apply (IH (n / 16) (String (hexDigit (n mod 16)) acc)).
Qed.

Lemma hexValueFrom_shift s acc :
  hexValueFrom acc s = acc * 16 ^ Z.of_nat (String.length s) + hexValueFrom 0 s.
Proof.
  revert acc. induction s as [|a s IH]; intros acc; simpl String.length; cbn [hexValueFrom].
  - change (16 ^ Z.of_nat 0) with 1. lia.
  - rewrite (IH (acc * 16 + hexDigitValue a)), (IH (0 * 16 + hexDigitValue a)).
    replace (Z.of_nat (S (String.length s))) with (1 + Z.of_nat (String.length s)) by lia.
    rewrite Z.pow_add_r by lia. change (16 ^ 1) with 16. lia.
Qed.

(** With enough fuel the digits denote the number: no digit is lost. *)
Lemma hexDigits_value fuel n acc :
  0 <= n < 16 ^ Z.of_nat fuel ->
  hexValue (hexDigits fuel n acc) =
  n * 16 ^ Z.of_nat (String.length acc) + hexValue acc.
Proof.
  unfold hexValue. revert n acc. induction fuel as [|fuel IH]; intros n acc Hn.
  - change (16 ^ Z.of_nat 0) with 1 in Hn. assert (n = 0) as -> by lia. simpl. lia.
  - cbn [hexDigits].
    assert (0 <= n mod 16 < 16) as Hm by (apply Z.mod_pos_bound; lia).
    assert (hexValueFrom 0 (String (hexDigit (n mod 16)) acc) =
            n mod 16 * 16 ^ Z.of_nat (String.length acc) + hexValueFrom 0 acc) as Hone.
    { cbn [hexValueFrom]. rewrite hexValueFrom_shift, hexDigit_value by exact Hm. lia. }
    destruct (n / 16 =? 0) eqn:Hq.
    + apply Z.eqb_eq in Hq. rewrite Hone.
      pose proof (Z.div_mod n 16 ltac:(lia)) as Hdm. rewrite Hq in Hdm.
      replace (n mod 16) with n by lia. reflexivity.
    + rewrite IH.
      * rewrite Hone. cbn [String.length].
        replace (Z.of_nat (S (String.length acc))) with (1 + Z.of_nat (String.length acc)) by lia.
        rewrite Z.pow_add_r by lia. change (16 ^ 1) with 16.
        pose proof (Z.div_mod n 16 ltac:(lia)) as Hdm. nia.
      * split; [apply Z.div_pos; lia|].
        apply Z.div_lt_upper_bound; [lia|].
        replace (Z.of_nat (S fuel)) with (1 + Z.of_nat fuel) in Hn by lia.
        rewrite Z.pow_add_r in Hn by lia. change (16 ^ 1) with 16 in Hn. lia.
Qed.

(** [toString16] gives itself enough fuel. *)
Lemma toString16_value n : 0 <= n -> hexValue (toString16 n) = n.
Proof.
  intros Hn. unfold toString16. rewrite hexDigits_value.
  - simpl String.length. change (16 ^ Z.of_nat 0) with 1. unfold hexValue. simpl. lia.
  - split; [exact Hn|].
    destruct (Z.eq_dec n 0) as [->|Hne].
    + simpl. lia.
    + pose proof (Z.log2_nonneg n) as Hl.
      pose proof (Z.log2_spec n ltac:(lia)) as [_ Hlt].
      rewrite Nat2Z.inj_succ, Z2Nat.id by exact Hl.
      eapply Z.lt_le_trans; [exact Hlt|].
      change 16 with (2 ^ 4). rewrite <- Z.pow_mul_r by lia.
      apply Z.pow_le_mono_r; lia.
Qed.

Lemma toString16_length n :
  0 <= n < 16 ^ 8 -> (1 <= String.length (toString16 n) <= 8)%nat.
Proof.
  intros Hn. unfold toString16. split.
  - apply hexDigits_nonempty.
  - pose proof (hexDigits_length (Z.to_nat (Z.log2 n)) 7 n "" Hn) as H.
    change (String.length "") with 0%nat in H. lia.
Qed.

Lemma toString16_lower n : allChars isLowerHex (toString16 n) = true.
Proof. apply hexDigits_lower. reflexivity. Qed.

Lemma renderId_shape hash :
  Int32.in_range hash ->
  String.length (renderId hash) = 8%nat /\ allChars isLowerHex (renderId hash) = true.
Proof.
  intros Hh. unfold renderId, padStart.
  assert (0 <= Z.abs hash < 16 ^ 8) as Habs.
  { unfold Int32.in_range, Int32.half_modulus in Hh.
    change (16 ^ 8) with 4294967296. change (2 ^ 31) with 2147483648 in Hh. lia. }
  pose proof (toString16_length _ Habs) as Hlen.
  split.
  - rewrite length_append, length_repeatChar. lia.
  - rewrite allChars_append, allChars_repeatChar by reflexivity.
    apply toString16_lower.
Qed.

(** ** The hash is the polynomial hash with multiplier 31 *)

(** C2, as stated, fails: on the two-character string ["ab"] the code
    computes 97 * 31 + 98 = 3105, while the update
    [acc * 31 - acc + c] of the specification gives 97 * 30 + 98 = 3008. *)
Lemma hashString_differs_from_spec_formula :
  hashString "ab" = 3105 /\ specHashString "ab" = 3008 /\
  hashString "ab" <> specHashString "ab".
Proof. repeat split; vm_compute; congruence. Qed.

(** C2, amended: the hash is computed left to right from an accumulator
    initialised to 0, and each code unit [c] updates it to
    [acc * 31 + c] truncated to a 32-bit signed integer, which is the same as
    [((acc << 5) - acc) + c] wrapped to 32 bits. *)
Theorem hashString_mul31 (s : string) :
  hashString s = fold_left mul31Step (charCodes s) 0 /\
  forall acc c : Z,
    mul31Step acc c = Int32.toInt32 ((Int32.shl acc 5 - acc) + c) /\
    hashStep acc c = mul31Step acc c.
Proof.
  split.
  - unfold hashString. apply fold_left_ext_step. intros a c. apply hashStep_mul31.
  - intros acc c. split; [|apply hashStep_mul31].
    unfold mul31Step. rewrite <- hashStep_mul31. unfold hashStep. cbv zeta.
    apply and_diag.
Qed.

(** ** The shape of the identifier *)

(** C3: for every message, category and metadata the identifier is the
    absolute value of the 32-bit hash in lowercase hexadecimal, padded on the
    left with ['0'], and it has exactly eight characters, all of them in
    [[0-9a-f]]; the rendering of any 32-bit value, the minimum -2^31
    included, never needs more than eight digits and loses none. *)
Theorem generateStableId_shape
    (message : string) (category : option string) (metadata : option Metadata) :
  let hash := hashString (stableString message category metadata) in
  let id := generateStableId message category metadata in
  id = padStart 8 "0" (toString16 (Z.abs hash)) /\
  String.length id = 8%nat /\
  allChars isLowerHex id = true /\
  hexValue id = Z.abs hash /\
  (forall x : Z, (String.length (toString16 (Z.abs (Int32.toInt32 x))) <= 8)%nat) /\
  renderId (- 2 ^ 31) = "80000000".
Proof.
  cbv zeta. unfold generateStableId.
  pose proof (hashString_range (stableString message category metadata)) as Hr.
  destruct (renderId_shape _ Hr) as [Hlen Hhex].
  repeat split; try assumption.
  - unfold renderId, padStart, hexValue.
    set (n := Z.abs _).
    assert (forall k s, hexValueFrom 0 (repeatChar "0" k +:+ s) =
                        hexValueFrom 0 s) as Hpad.
    { induction k as [|k IH]; intros s'; [reflexivity|].
      cbn [repeatChar]. change (String "0" (repeatChar "0" k) +:+ s')
        with (String "0" (repeatChar "0" k +:+ s')).
      cbn [hexValueFrom]. change (0 * 16 + hexDigitValue "0") with 0. apply IH. }
    rewrite Hpad. apply toString16_value. subst n. lia.
  - intros x. pose proof (toInt32_range x) as Hx.
    unfold Int32.in_range, Int32.half_modulus in Hx.
    apply toString16_length.
    change (16 ^ 8) with 4294967296. change (2 ^ 31) with 2147483648 in Hx. lia.
Qed.

(** ** Metadata filtering *)

Lemma filterMetadata_default metadata :
  filterMetadata metadata = filter stableEntry (default ∅ metadata).
Proof.
  destruct metadata as [m|]; simpl; [reflexivity|].
  symmetry. apply map_filter_empty.
Qed.

Lemma lookup_filterMetadata (m : Metadata) key v :
  filterMetadata (Some m) !! key = Some v <->
  m !! key = Some v /\ key ∈ allowedKeys /\ v <> VUndefined /\ v <> VNull.
Proof. simpl. rewrite map_lookup_filter_Some. unfold stableEntry. simpl. tauto. Qed.

Lemma is_Some_filterMetadata (m : Metadata) key :
  is_Some (filterMetadata (Some m) !! key) <-> key ∈ allowedKeys /\ survives m key.
Proof.
  unfold is_Some, survives. split.
  - intros [v Hv]. apply lookup_filterMetadata in Hv.
    destruct Hv as (Hv & Hk & Hne). split; [exact Hk|]. exists v. tauto.
  - intros [Hk [v [Hv Hne]]]. exists v. apply lookup_filterMetadata. tauto.
Qed.

(** The filtered object only depends on the allow-listed entries. *)
Lemma filterMetadata_agree (md1 md2 : option Metadata) :
  (forall key, key ∈ allowedKeys -> default ∅ md1 !! key = default ∅ md2 !! key) ->
  filterMetadata md1 = filterMetadata md2.
Proof.
  intros Hagree. rewrite !filterMetadata_default. apply map_eq. intros key.
  apply option_eq. intros v. rewrite !map_lookup_filter_Some.
  unfold stableEntry. simpl. split; intros (Hv & Hk & Hne).
  - rewrite <- (Hagree key Hk). tauto.
  - rewrite (Hagree key Hk). tauto.
Qed.

Lemma allowedKeys_sorted key : key ∈ allowedKeys <-> key ∈ sortedAllowedKeys.
Proof.
  unfold allowedKeys, sortedAllowedKeys. rewrite elem_of_list_to_set.
  rewrite !elem_of_cons. rewrite !elem_of_nil. tauto.
Qed.

Lemma sortedAllowedKeys_sorted : Sorted String.le sortedAllowedKeys.
Proof. unfold sortedAllowedKeys. repeat constructor; vm_compute; exact I. Qed.

Lemma sortedAllowedKeys_NoDup : NoDup sortedAllowedKeys.
Proof. apply (bool_decide_unpack (NoDup sortedAllowedKeys)). vm_compute. exact I. Qed.

Lemma Sorted_le_filter (P : string -> Prop) `{forall x, Decision (P x)} l :
  Sorted String.le l -> Sorted String.le (filter P l).
Proof.
  intros Hs. apply Sorted_StronglySorted in Hs; [|apply _].
  apply StronglySorted_Sorted.
  induction Hs as [|x l Hl IH Hall]; [constructor|].
  rewrite filter_cons. destruct (decide (P x)); [|exact IH].
  constructor; [exact IH|].
  rewrite Forall_forall in Hall |- *. intros y Hy. apply Hall.
  apply list_elem_of_filter in Hy. tauto.
Qed.

(** [Object.keys(filtered).sort()] lists the surviving allow-listed keys in
    ascending order. *)
Lemma sortedKeysOf_filterMetadata (metadata : option Metadata) :
  sortedKeysOf (filterMetadata metadata) = specKeys (default ∅ metadata).
Proof.
  rewrite filterMetadata_default. set (m := default ∅ metadata).
  change (filter stableEntry m) with (filterMetadata (Some m)).
  unfold sortedKeysOf, specKeys.
  apply (Sorted_unique String.le).
  - apply Sorted_merge_sort. apply _.
  - apply Sorted_le_filter, sortedAllowedKeys_sorted.
  - rewrite merge_sort_Permutation. apply NoDup_Permutation.
    + apply (NoDup_fst_map_to_list (filterMetadata (Some m))).
    + apply NoDup_filter, sortedAllowedKeys_NoDup.
    + intros key. rewrite list_elem_of_filter, <- allowedKeys_sorted.
      change (map fst (map_to_list (filterMetadata (Some m))))
        with ((map_to_list (filterMetadata (Some m))).*1).
      rewrite list_elem_of_fmap. split.
      * intros [[k v] [-> Hkv]]. apply elem_of_map_to_list in Hkv. simpl.
        apply and_comm, is_Some_filterMetadata. eauto.
      * intros [Hs Hk]. destruct (proj2 (is_Some_filterMetadata m key)) as [v Hv]; [tauto|].
        exists (key, v). split; [reflexivity|].
        now apply elem_of_map_to_list.
Qed.

Lemma getProp_filterMetadata (m : Metadata) key :
  key ∈ specKeys m ->
  getProp (filterMetadata (Some m)) key = getProp m key.
Proof.
  unfold specKeys.
  rewrite list_elem_of_filter, <- allowedKeys_sorted. intros [[v [Hv Hne]] Hk].
  unfold getProp. rewrite Hv.
  assert (filterMetadata (Some m) !! key = Some v) as ->; [|reflexivity].
  apply lookup_filterMetadata. tauto.
Qed.

(** ** The canonical string *)

Lemma append_cons a (s1 s2 : string) : String a s1 +:+ s2 = String a (s1 +:+ s2).
Proof. reflexivity. Qed.

Lemma append_assoc (s1 s2 s3 : string) : (s1 +:+ s2) +:+ s3 = s1 +:+ s2 +:+ s3.
Proof.
  induction s1 as [|a s1 IH]; [reflexivity|].
  rewrite !append_cons. now rewrite IH.
Qed.

Lemma append_empty_r (s : string) : s +:+ "" = s.
Proof.
  induction s as [|a s IH]; [reflexivity|].
  rewrite append_cons. now rewrite IH.
Qed.

Lemma specKeys_spec (m : Metadata) key :
  key ∈ specKeys m <-> key ∈ allowedKeys /\ survives m key.
Proof. unfold specKeys. rewrite list_elem_of_filter, <- allowedKeys_sorted. tauto. Qed.

(** C4: the string that is hashed is ["message:"] followed by the normalised
    message, ["|category:"] followed by the lowercased and trimmed category
    (empty when the category is absent) and, only when some entry survives
    the filter, ["|metadata:k1:v1,k2:v2,..."] where the keys are the
    surviving allow-listed keys in ascending order, without repetition, and
    each value is the lowercased and trimmed string form of the caller's
    value; a key is listed exactly when it is allow-listed and its value is
    neither absent, undefined nor null. *)
Theorem stableString_canonical
    (message : string) (category : option string) (metadata : option Metadata) :
  let m := default ∅ metadata in
  stableString message category metadata =
    specStableString message category metadata /\
  StronglySorted String.le (specKeys m) /\
  NoDup (specKeys m) /\
  (forall key, key ∈ specKeys m <->
     key ∈ allowedKeys /\
     exists v, m !! key = Some v /\ v <> VUndefined /\ v <> VNull).
Proof.
  cbv zeta. set (m := default ∅ metadata).
  assert (stableString message category metadata =
          specStableString message category metadata) as Heq.
  { unfold stableString, specStableString. cbv zeta.
    rewrite sortedKeysOf_filterMetadata. fold m.
    rewrite filterMetadata_default. fold m.
    change (filter stableEntry m) with (filterMetadata (Some m)).
    pose proof (getProp_filterMetadata m) as Hget.
    destruct (specKeys m) as [|k keys] eqn:Hkeys.
    - simpl. rewrite !append_assoc, append_empty_r. reflexivity.
    - change (0 <? length (k :: keys))%nat with true. cbv iota.
      assert (map (fun key => key +:+ ":" +:+
                     trim (toLowerCase (toString (getProp (filterMetadata (Some m)) key))))
                  (k :: keys) = map (specEntry m) (k :: keys)) as ->.
      { apply map_ext_in. intros key Hin. unfold specEntry.
        rewrite Hget; [reflexivity|]. now apply list_elem_of_In. }
      cbn [app String.concat]. rewrite !append_assoc. reflexivity. }
  split; [exact Heq|].
  split; [apply Sorted_StronglySorted; [apply _|];
          apply Sorted_le_filter, sortedAllowedKeys_sorted|].
  split; [apply NoDup_filter, sortedAllowedKeys_NoDup|].
  intros key. apply specKeys_spec.
Qed.

(** ** The identifier is a function of the stable inputs *)

Lemma generateStableId_agree message category (md1 md2 : option Metadata) :
  (forall key, key ∈ allowedKeys -> default ∅ md1 !! key = default ∅ md2 !! key) ->
  generateStableId message category md1 = generateStableId message category md2.
Proof.
  intros Hagree. unfold generateStableId, stableString.
  now rewrite (filterMetadata_agree md1 md2 Hagree).
Qed.

Lemma original_keys_not_allowed key :
  key ∈ allowedKeys -> key <> "originalName" /\ key <> "originalStack".
Proof.
  intros Hk. apply allowedKeys_sorted in Hk. unfold sortedAllowedKeys in Hk.
  rewrite !elem_of_cons, elem_of_nil in Hk.
  destruct Hk as [->|[->|[->|[->|[->|[->|[]]]]]]]; split; discriminate.
Qed.

(** The identifier stored by [createStableError] is the derived identifier
    of the message, the effective category and the caller's metadata. *)
Lemma createStableError_id host src options :
  StableError.id (createStableError host src options) =
  generateStableId (sourceMessage src)
    (Some (orString (Options.category options) "general"))
    (Options.metadata options).
Proof.
  destruct src as [s|e]; simpl; apply generateStableId_agree; intros key Hk;
    [destruct (Options.metadata options); reflexivity|].
  destruct (original_keys_not_allowed key Hk) as [Hn Hs]. simpl.
  rewrite lookup_insert_ne by congruence.
  rewrite lookup_insert_ne by congruence.
  reflexivity.
Qed.

(** C1: two calls of [createStableError] with equal message, equal
    category and metadata that agree on the allow-listed keys produce the
    same identifier, whatever the clock, the stacks, the kind of source, the
    status code, the severity and the other metadata entries are; and so do
    two calls of the identifier derivation itself. *)
Theorem id_depends_only_on_stable_inputs
    (host1 host2 : Host.t) (src1 src2 : messageOrError) (o1 o2 : Options.t) :
  sourceMessage src1 = sourceMessage src2 ->
  Options.category o1 = Options.category o2 ->
  (forall key, key ∈ allowedKeys ->
     default ∅ (Options.metadata o1) !! key = default ∅ (Options.metadata o2) !! key) ->
  StableError.id (createStableError host1 src1 o1) =
    StableError.id (createStableError host2 src2 o2) /\
  forall message category,
    generateStableId message category (Options.metadata o1) =
    generateStableId message category (Options.metadata o2).
Proof.
  intros Hmsg Hcat Hagree. split.
  - rewrite !createStableError_id, Hmsg, Hcat. now apply generateStableId_agree.
  - intros message category. now apply generateStableId_agree.
Qed.

Lemma id_depends_only_on_stable_inputs_witness :
  StableError.id (createStableError Sample.host1 Sample.src1 Sample.options1) =
    StableError.id (createStableError Sample.host2 Sample.src2 Sample.options2) /\
  forall message category,
    generateStableId message category (Some Sample.metadata1) =
    generateStableId message category (Some Sample.metadata2).
Proof.
  apply (id_depends_only_on_stable_inputs
           Sample.host1 Sample.host2 Sample.src1 Sample.src2
           Sample.options1 Sample.options2).
  - reflexivity.
  - reflexivity.
  - intros key Hk. apply allowedKeys_sorted in Hk. unfold sortedAllowedKeys in Hk.
    rewrite !elem_of_cons, elem_of_nil in Hk.
    destruct Hk as [->|[->|[->|[->|[->|[->|[]]]]]]]; vm_compute; reflexivity.
Defined.

(** ** Wrapping a source error *)

(** C7, as stated, fails on a source whose stack is present but empty:
    the guard [if (originalStack)] rejects the empty string, and the record
    keeps the stack the host gave to the new error object. *)
Lemma empty_source_stack_not_adopted :
  JsError.stack emptyStackError = Some "" /\
  StableError.stack
    (createStableError Sample.host1 (OfError emptyStackError) Options.empty)
  = Some "Error: at first" /\
  StableError.stack
    (createStableError Sample.host1 (OfError emptyStackError) Options.empty)
  <> JsError.stack emptyStackError.
Proof. repeat split; vm_compute; congruence. Qed.

(** C7, amended: wrapping an error-like source gives a record whose message
    is the source's message and whose name is ["StableError"]; its metadata
    is [options.metadata] with [originalName] set to the source's name and
    [originalStack] to the source's stack, both always present and overriding
    entries of the same name, every other key being as the caller gave it;
    and the source's stack is adopted verbatim when it is present and not
    empty, the host's stack being kept otherwise. *)
Theorem createStableError_wraps (host : Host.t) (e : JsError.t) (options : Options.t) :
  let r := createStableError host (OfError e) options in
  let base := default ∅ (Options.metadata options) in
  StableError.message r = JsError.message e /\
  StableError.name r = "StableError" /\
  StableError.metadata r !! "originalName" = Some (VString (JsError.name e)) /\
  StableError.metadata r !! "originalStack" = Some (optionalString (JsError.stack e)) /\
  (forall key, StableError.metadata r !! key =
     if decide (key = "originalName") then Some (VString (JsError.name e))
     else if decide (key = "originalStack") then Some (optionalString (JsError.stack e))
     else base !! key) /\
  StableError.stack r =
    match JsError.stack e with
    | Some "" | None => Host.errorStack host (JsError.message e)
    | Some s => Some s
    end.
Proof.
  cbv zeta. simpl. repeat split.
  - rewrite lookup_insert_ne by discriminate. apply lookup_insert_eq.
  - apply lookup_insert_eq.
  - intros key. destruct (decide (key = "originalName")) as [->|Hn].
    + rewrite lookup_insert_ne by discriminate. apply lookup_insert_eq.
    + destruct (decide (key = "originalStack")) as [->|Hs].
      * apply lookup_insert_eq.
      * rewrite !lookup_insert_ne by congruence. reflexivity.
  - destruct (JsError.stack e) as [[|a s]|]; reflexivity.
Qed.

(** ** Serialisation *)

(** C8: for every record made by [createStableError], [toJSON] returns an
    object with exactly the eight properties id, message, category,
    metadata, severity, timestamp, statusCode and stack, each holding the
    value of the record's field of that name ([stack] holding [undefined]
    when the record has none). *)
Theorem toJSON_fields (host : Host.t) (src : messageOrError) (options : Options.t) :
  let e := createStableError host src options in
  let json := toJSON e in
  map fst json = jsonKeys /\
  NoDup (map fst json) /\
  length json = 8%nat /\
  (forall key, is_Some (getField json key) <-> key ∈ jsonKeys) /\
  getField json "id" = Some (JString (StableError.id e)) /\
  getField json "message" = Some (JString (StableError.message e)) /\
  getField json "category" = Some (JString (StableError.category e)) /\
  getField json "metadata" = Some (JMetadata (StableError.metadata e)) /\
  getField json "severity" = Some (JSeverity (StableError.severity e)) /\
  getField json "timestamp" = Some (JString (StableError.timestamp e)) /\
  getField json "statusCode" = Some (JNumber (StableError.statusCode e)) /\
  getField json "stack" = Some (optionalField (StableError.stack e)).
Proof.
  cbv zeta. set (e := createStableError host src options).
  split; [reflexivity|].
  split; [apply (bool_decide_unpack (NoDup jsonKeys)); vm_compute; exact I|].
  split; [reflexivity|].
  split; [|repeat split].
  intros key. unfold toJSON, jsonKeys. cbn [getField].
  rewrite !elem_of_cons, elem_of_nil.
  repeat match goal with
         | |- context [String.eqb ?k key] =>
             destruct (String.eqb_spec k key) as [<-|?]
         end;
    split; intros H; eauto 10;
    try (destruct H as [x Hx]; discriminate Hx);
    repeat (destruct H as [H|H]; [congruence|]); contradiction.
Qed.

(** ** Defaults *)

(** C9: a bare text message with no options gives category ["general"],
    severity [medium], status code 500 and empty metadata; and the category
    is ["general"] as well when the caller supplies the empty string. *)
Theorem createStableError_defaults (host : Host.t) (message : string) :
  let e := createStableError host (OfString message) Options.empty in
  StableError.category e = "general" /\
  StableError.severity e = medium /\
  StableError.statusCode e = 500 /\
  StableError.metadata e = ∅ /\
  forall (src : messageOrError) (metadata : option Metadata)
         (severity : option ErrorSeverity) (statusCode : option Z),
    StableError.category
      (createStableError host src (Options.mk (Some "") metadata severity statusCode))
    = "general".
Proof.
  cbv zeta. repeat split. intros [s|e] metadata severity statusCode; reflexivity.
Qed.

(** C10: a status code option of 0 gives the record status code 500; the
    default replaces a falsy status code as well as an absent one, and any
    other status code is kept. *)
Theorem createStableError_statusCode_zero
    (host : Host.t) (src : messageOrError) (category : option string)
    (metadata : option Metadata) (severity : option ErrorSeverity) :
  StableError.statusCode
    (createStableError host src (Options.mk category metadata severity (Some 0))) = 500 /\
  StableError.statusCode
    (createStableError host src (Options.mk category metadata severity None)) = 500 /\
  forall n : Z,
    StableError.statusCode
      (createStableError host src (Options.mk category metadata severity (Some n)))
    = if n =? 0 then 500 else n.
Proof.
  destruct src as [s|e]; repeat split.
Qed.

(** ** Regular-expression matching: what a match consumes *)

Lemma many_consumes cls k prev s x :
  many cls k prev s = Some x ->
  exists prev' s', k prev' s' = Some x /\ (String.length s' <= String.length s)%nat.
Proof.
  revert prev. induction s as [|a s IH]; intros prev; cbn [many].
  - intros H. eauto.
  - destruct (cls a); [|intros H; eauto].
    destruct (many cls k (Some a) s) as [r|] eqn:Hm.
    + intros [= <-]. destruct (IH _ Hm) as (p' & s' & Hk & Hlen).
      exists p', s'. split; [exact Hk | simpl; lia].
    + intros H. eauto.
Qed.

(** A successful match calls the continuation on a rest that is shorter
    than the input by at least [minLen]. *)
Lemma rmatch_consumes r : forall k prev s x,
  rmatch r k prev s = Some x ->
  exists prev' s', k prev' s' = Some x /\
                   (String.length s' + minLen r <= String.length s)%nat.
Proof.
  induction r as [|cls| |r1 IH1 r2 IH2|r1 IH1|n r1 IH1|cls]; intros k prev s x; cbn [rmatch minLen].
  - intros H. exists prev, s. split; [exact H | lia].
  - destruct s as [|a s]; [discriminate|]. destruct (cls a); [|discriminate].
    intros H. exists (Some a), s. split; [exact H | simpl; lia].
  - destruct (xorb _ _); [|discriminate].
    intros H. exists prev, s. split; [exact H | lia].
  - intros H. destruct (IH1 _ _ _ _ H) as (p1 & s1 & H1 & Hl1).
    destruct (IH2 _ _ _ _ H1) as (p2 & s2 & H2 & Hl2).
    exists p2, s2. split; [exact H2 | lia].
  - destruct (rmatch r1 k prev s) as [r|] eqn:Hm.
    + intros [= <-]. destruct (IH1 _ _ _ _ Hm) as (p1 & s1 & H1 & Hl1).
      exists p1, s1. split; [exact H1 | lia].
    + intros H. exists prev, s. split; [exact H | lia].
  - revert prev s. induction n as [|n IHn]; intros prev s; cbn [Nat.iter].
    + intros H. exists prev, s. split; [exact H | lia].
    + intros H. destruct (IH1 _ _ _ _ H) as (p1 & s1 & H1 & Hl1).
      destruct (IHn _ _ H1) as (p2 & s2 & H2 & Hl2).
      exists p2, s2. split; [exact H2 | simpl; lia].
  - destruct s as [|a s]; [discriminate|]. destruct (cls a); [|discriminate].
    intros H. destruct (many_consumes _ _ _ _ _ H) as (p' & s' & Hk & Hl).
    exists p', s'. split; [exact Hk | simpl; lia].
Qed.

Lemma matchAt_consumes re prev s rest :
  matchAt re prev s = Some rest ->
  (String.length rest + minLen re <= String.length s)%nat.
Proof.
  unfold matchAt. intros H.
  destruct (rmatch_consumes _ _ _ _ _ H) as (p' & s' & [= ->] & Hl). exact Hl.
Qed.

Lemma matchAt_short re prev s :
  (String.length s < minLen re)%nat -> matchAt re prev s = None.
Proof.
  intros Hlt. destruct (matchAt re prev s) as [rest|] eqn:Hm; [|reflexivity].
  apply matchAt_consumes in Hm. lia.
Qed.


(** ** Replacement around a match *)

Lemma lastOr_append prev s1 s2 : lastOr prev (s1 +:+ s2) = lastOr (lastOr prev s1) s2.
Proof.
  revert prev. induction s1 as [|a s1 IH]; intros prev; [reflexivity|].
  rewrite append_cons. cbn [lastOr]. apply IH.
Qed.

(** Skipping exactly the characters of [m]. *)
Lemma replaceFrom_skip re repl m rest : forall prev,
  replaceFrom re repl (String.length m) prev (m +:+ rest) =
  replaceFrom re repl 0 (lastOr prev m) rest.
Proof.
  induction m as [|a m IH]; intros prev; [reflexivity|].
  rewrite append_cons. cbn [String.length replaceFrom lastOr]. apply IH.
Qed.

(** A match of the non-empty [m] at the current position is replaced, and
    the scan resumes after it. *)
Lemma replaceFrom_match re repl prev a m rest :
  matchAt re prev (String a m +:+ rest) = Some rest ->
  replaceFrom re repl 0 prev (String a m +:+ rest) =
  repl +:+ replaceFrom re repl 0 (lastOr prev (String a m)) rest.
Proof.
  intros Hm. rewrite append_cons in *. cbn [replaceFrom]. rewrite Hm.
  replace (String.length (String a (m +:+ rest)) - String.length rest)%nat
    with (S (String.length m)).
  - rewrite replaceFrom_skip. reflexivity.
  - cbn [String.length]. rewrite length_append. lia.
Qed.

(** Where no match starts at the first character, the scan does not depend
    on the character before the input. *)
Lemma replaceFrom_prev re repl prev prev' s :
  matchAt re prev s = None -> matchAt re prev' s = None ->
  replaceFrom re repl 0 prev s = replaceFrom re repl 0 prev' s.
Proof.
  intros H1 H2. destruct s as [|a s]; cbn [replaceFrom]; now rewrite H1, H2.
Qed.

(** ** Matching in front of a delimiter *)

Section Delimiter.

Variables (c : ascii) (rest : string).

Lemma sameMatch_mono p p' x y :
  (String.length p <= String.length p')%nat ->
  sameMatch c rest p x y -> sameMatch c rest p' x y.
Proof.
  intros Hle [H|(q & Hq & Hx & Hy)]; [left; exact H|].
  right. exists q. split; [lia | tauto].
Qed.

Lemma sameCont_mono p p' k1 k2 :
  (String.length p' <= String.length p)%nat ->
  sameCont c rest p k1 k2 -> sameCont c rest p' k1 k2.
Proof. intros Hle Hk prev q Hq. apply Hk. lia. Qed.

Lemma first_delimited p : wordChar c = false ->
  isWordAt (first (p +:+ String c rest)) = isWordAt (first p).
Proof. intros Hc. destruct p as [|a p]; [exact Hc | reflexivity]. Qed.

Lemma many_delimited cls k1 k2 : cls c = false -> forall p prev,
  sameCont c rest p k1 k2 ->
  sameMatch c rest p (many cls k1 prev (p +:+ String c rest)) (many cls k2 prev p).
Proof.
  intros Hc. induction p as [|a p IH]; intros prev Hk.
  - change ("" +:+ String c rest) with (String c rest). cbn [many]. rewrite Hc.
    apply (Hk prev ""). lia.
  - rewrite append_cons. cbn [many]. destruct (cls a).
    + assert (sameCont c rest p k1 k2) as Hk'
        by (eapply sameCont_mono; [|exact Hk]; simpl; lia).
      destruct (IH (Some a) Hk') as [[-> ->]|(q & Hq & -> & ->)].
      * apply (Hk prev (String a p)). lia.
      * right. exists q. split; [simpl; lia | tauto].
    + apply (Hk prev (String a p)). lia.
Qed.

Lemma rmatch_delimited r :
  alphabet r c = false -> (hasBoundary r = true -> wordChar c = false) ->
  forall k1 k2 p prev,
    sameCont c rest p k1 k2 ->
    sameMatch c rest p (rmatch r k1 prev (p +:+ String c rest)) (rmatch r k2 prev p).
Proof.
  induction r as [|cls| |r1 IH1 r2 IH2|r1 IH1|n r1 IH1|cls];
    cbn [alphabet hasBoundary]; intros Ha Hb k1 k2 p prev Hk; cbn [rmatch].
  - apply (Hk prev p). lia.
  - destruct p as [|a p].
    + change ("" +:+ String c rest) with (String c rest). cbv iota.
      rewrite Ha. now left.
    + rewrite append_cons. cbv iota. destruct (cls a); [|now left].
      eapply sameMatch_mono; [|apply (Hk (Some a) p); simpl; lia]. simpl; lia.
  - rewrite first_delimited by now apply Hb.
    destruct (xorb _ _); [|now left]. apply (Hk prev p). lia.
  - apply orb_false_elim in Ha as [Ha1 Ha2].
    apply IH1; [exact Ha1 | intros H; apply Hb; now rewrite H|].
    intros prev' q Hq. apply IH2; [exact Ha2 | intros H; apply Hb; now rewrite H, orb_true_r|].
    eapply sameCont_mono; [|exact Hk]. exact Hq.
  - destruct (IH1 Ha Hb k1 k2 p prev Hk) as [[-> ->]|(q & Hq & -> & ->)].
    + apply (Hk prev p). lia.
    + right. exists q. tauto.
  - revert p prev Hk. induction n as [|n IHn]; intros p prev Hk; cbn [Nat.iter].
    + apply (Hk prev p). lia.
    + apply IH1; [exact Ha | exact Hb|].
      intros prev' q Hq. apply IHn. eapply sameCont_mono; [|exact Hk]. exact Hq.
  - destruct p as [|a p].
    + change ("" +:+ String c rest) with (String c rest). cbv iota.
      rewrite Ha. now left.
    + rewrite append_cons. cbv iota. destruct (cls a); [|now left].
      eapply sameMatch_mono; [|apply many_delimited; [exact Ha|]].
      * simpl. apply Nat.le_succ_diag_r.
      * eapply sameCont_mono; [|exact Hk]. simpl; lia.
Qed.

Lemma matchAt_delimited re prev p :
  delimits re c = true ->
  sameMatch c rest p (matchAt re prev (p +:+ String c rest)) (matchAt re prev p).
Proof.
  unfold delimits. intros Hd. apply andb_true_iff in Hd as [Ha Hb].
  apply negb_true_iff in Ha.
  apply rmatch_delimited; [exact Ha| |].
  - intros H. rewrite H in Hb. simpl in Hb. now apply negb_true_iff in Hb.
  - intros prev' q Hq. right. exists q. split; [lia | tauto].
Qed.

(** The scan of a string that continues behind a delimiter is the scan of
    the string, the delimiter, and the scan of what follows. *)
Lemma replaceFrom_delimited re repl :
  delimits re c = true -> (1 <= minLen re)%nat ->
  forall p n prev, (n <= String.length p)%nat ->
    replaceFrom re repl n prev (p +:+ String c rest) =
    replaceFrom re repl n prev p +:+
      String c (replaceFrom re repl 0 (Some c) rest).
Proof.
  intros Hd Hmin. induction p as [|a p IH]; intros n prev Hn.
  - assert (n = 0)%nat as -> by (simpl in Hn; lia).
    change ("" +:+ String c rest) with (String c rest). cbn [replaceFrom].
    rewrite (matchAt_short re prev "") by (simpl; lia).
    destruct (matchAt_delimited re prev "" Hd) as [[H1 _]|(q & Hq & _ & H2)].
    + change ("" +:+ String c rest) with (String c rest) in H1. rewrite H1. reflexivity.
    + rewrite matchAt_short in H2 by (simpl; lia). discriminate.
  - rewrite append_cons. destruct n as [|n].
    + cbn [replaceFrom].
      destruct (matchAt_delimited re prev (String a p) Hd) as [[H1 H2]|(q & Hq & H1 & H2)];
        rewrite append_cons in H1; rewrite H1, H2.
      * rewrite IH by lia. reflexivity.
      * rewrite length_append. cbn [String.length]. rewrite length_append.
        cbn [String.length] in *.
        replace (S (String.length p + S (String.length rest))
                 - (String.length q + S (String.length rest)))%nat
          with (S (String.length p) - String.length q)%nat by lia.
        destruct (S (String.length p) - String.length q)%nat as [|m] eqn:Hm.
        -- rewrite IH by lia. rewrite append_assoc. reflexivity.
        -- rewrite IH by lia. rewrite append_assoc. reflexivity.
    + cbn [replaceFrom]. apply IH. simpl in Hn. lia.
Qed.

End Delimiter.

(** ** Character classes *)

Ltac by_cases_on_char a :=
  destruct a as [[] [] [] [] [] [] [] []]; vm_compute; congruence.

Lemma digit_wordChar a : digit a = true -> wordChar a = true.
Proof. by_cases_on_char a. Qed.

Lemma nonword_nondigit a : wordChar a = false -> digit a = false.
Proof. by_cases_on_char a. Qed.

Lemma digit_not_upper a : digit a = true -> toLowerChar a = a.
Proof. by_cases_on_char a. Qed.

Lemma digit_not_space a : digit a = true -> isWhiteSpace a = false.
Proof. by_cases_on_char a. Qed.

Lemma lastOr_decompose pre : pre <> "" ->
  exists p c, pre = p +:+ String c "" /\ forall prev, lastOr prev pre = Some c.
Proof.
  induction pre as [|a pre IH]; [congruence|]. intros _.
  destruct pre as [|b pre].
  - exists "", a. split; reflexivity.
  - assert (String b pre <> "") as Hne by discriminate.
    destruct (IH Hne) as (p & c & Hp & Hl).
    exists (String a p), c. split.
    + rewrite append_cons. now rewrite <- Hp.
    + intros prev. exact (Hl (Some a)).
Qed.

(** ** The rule for 13-digit integers *)

Lemma matchAt_timestampMs_nondigit prev a s :
  digit a = false -> matchAt timestampMsRe prev (String a s) = None.
Proof.
  intros Ha. unfold matchAt, timestampMsRe, rseq.
  cbn [fold_right rmatch Nat.iter nat_rect]. rewrite Ha. now destruct (xorb _ _).
Qed.

Lemma delimits_timestampMs c : wordChar c = false -> delimits timestampMsRe c = true.
Proof.
  intros Hc. unfold delimits, timestampMsRe, rseq.
  cbn [fold_right alphabet hasBoundary]. now rewrite (nonword_nondigit c Hc), Hc.
Qed.

Ltac split_digits d Hlen Hall :=
  do 13 (destruct d as [|? d]; [discriminate Hlen|]);
  destruct d; [|discriminate Hlen];
  cbn [allChars] in Hall;
  repeat match type of Hall with
         | (_ && _) = true => let H := fresh "Hd" in apply andb_prop in Hall as [H Hall]
         end.

(** Thirteen digits between two word boundaries match. *)
Lemma matchAt_timestampMs prev d rest :
  String.length d = 13%nat -> allChars digit d = true ->
  isWordAt prev = false -> isWordAt (first rest) = false ->
  matchAt timestampMsRe prev (d +:+ rest) = Some rest.
Proof.
  intros Hlen Hall Hprev Hrest. split_digits d Hlen Hall.
  unfold matchAt, timestampMsRe, rseq. rewrite !append_cons.
  change ("" +:+ rest) with rest.
  cbn [fold_right rmatch Nat.iter nat_rect first isWordAt].
  rewrite Hprev, (digit_wordChar _ Hd). cbn [xorb].
  rewrite Hd, Hd0, Hd1, Hd2, Hd3, Hd4, Hd5, Hd6, Hd7, Hd8, Hd9, Hd10, Hd11.
  rewrite (digit_wordChar _ Hd11), Hrest. reflexivity.
Qed.


Lemma replaceAll_empty_timestampMs prev :
  replaceFrom timestampMsRe "TIMESTAMP_MS" 0 prev "" = "".
Proof. cbn [replaceFrom]. now rewrite matchAt_short by (simpl; lia). Qed.

Lemma timestampMs_after_match prev post :
  isWordAt (first post) = false ->
  replaceFrom timestampMsRe "TIMESTAMP_MS" 0 prev post =
  replaceAll timestampMsRe "TIMESTAMP_MS" post.
Proof.
  intros Hpost. unfold replaceAll. destruct post as [|a post].
  - now rewrite !replaceAll_empty_timestampMs.
  - apply replaceFrom_prev; apply matchAt_timestampMs_nondigit, nonword_nondigit, Hpost.
Qed.

Lemma timestampMs_replaced_here prev d post :
  String.length d = 13%nat -> allChars digit d = true ->
  isWordAt prev = false -> isWordAt (first post) = false ->
  replaceFrom timestampMsRe "TIMESTAMP_MS" 0 prev (d +:+ post) =
  "TIMESTAMP_MS" +:+ replaceAll timestampMsRe "TIMESTAMP_MS" post.
Proof.
  intros Hlen Hall Hprev Hpost.
  pose proof (matchAt_timestampMs prev d post Hlen Hall Hprev Hpost) as Hm.
  destruct d as [|a d]; [discriminate Hlen|].
  rewrite (replaceFrom_match _ _ _ _ _ _ Hm).
  now rewrite timestampMs_after_match.
Qed.

Lemma timestampMs_replaced_in_context pre d post :
  String.length d = 13%nat -> allChars digit d = true ->
  isWordAt (lastOr None pre) = false -> isWordAt (first post) = false ->
  replaceAll timestampMsRe "TIMESTAMP_MS" (pre +:+ d +:+ post) =
  replaceAll timestampMsRe "TIMESTAMP_MS" pre +:+ "TIMESTAMP_MS" +:+
  replaceAll timestampMsRe "TIMESTAMP_MS" post.
Proof.
  intros Hlen Hall Hpre Hpost. unfold replaceAll at 1 2.
  destruct (decide (pre = "")) as [->|Hne].
  - change ("" +:+ d +:+ post) with (d +:+ post).
    rewrite replaceAll_empty_timestampMs.
    now apply timestampMs_replaced_here.
  - destruct (lastOr_decompose pre Hne) as (p & c & -> & Hlast).
    rewrite Hlast in Hpre. cbn [isWordAt] in Hpre.
    rewrite append_assoc. rewrite !append_cons.
    change ("" +:+ d +:+ post) with (d +:+ post).
    rewrite !replaceFrom_delimited
      by (try apply delimits_timestampMs; try exact Hpre; simpl; lia).
    rewrite replaceAll_empty_timestampMs.
    rewrite timestampMs_replaced_here by assumption.
    rewrite append_assoc. reflexivity.
Qed.

(** ** The rules that follow: numbers and white space *)

(** A prefix made of characters at which no match can start is copied. *)
Lemma replaceFrom_copy_prefix re repl (P : ascii -> bool) :
  (forall prev a s, P a = true -> matchAt re prev (String a s) = None) ->
  forall m rest prev, allChars P m = true ->
    replaceFrom re repl 0 prev (m +:+ rest) =
    m +:+ replaceFrom re repl 0 (lastOr prev m) rest.
Proof.
  intros Hno. induction m as [|a m IH]; intros rest prev Hm; [reflexivity|].
  cbn [allChars] in Hm. apply andb_prop in Hm as [Ha Hm].
  rewrite !append_cons. cbn [replaceFrom lastOr].
  rewrite <- IH by exact Hm. now rewrite (Hno prev a (m +:+ rest) Ha).
Qed.

Lemma matchAt_number_nondigit prev a s :
  negb (digit a) = true -> matchAt numberRe prev (String a s) = None.
Proof.
  intros Ha. apply negb_true_iff in Ha. unfold matchAt, numberRe, rseq.
  cbn [fold_right rmatch]. rewrite Ha. now destruct (xorb _ _).
Qed.

Lemma matchAt_spaces_nonspace prev a s :
  negb (space a) = true -> matchAt spacesRe prev (String a s) = None.
Proof.
  intros Ha. apply negb_true_iff in Ha. unfold matchAt, spacesRe.
  cbn [rmatch]. now rewrite Ha.
Qed.

Lemma delimits_number c : wordChar c = false -> delimits numberRe c = true.
Proof.
  intros Hc. unfold delimits, numberRe, rseq.
  cbn [fold_right alphabet hasBoundary]. now rewrite (nonword_nondigit c Hc), Hc.
Qed.

Lemma replaceFrom_empty re repl prev :
  (1 <= minLen re)%nat -> replaceFrom re repl 0 prev "" = "".
Proof. intros Hmin. cbn [replaceFrom]. now rewrite matchAt_short by (simpl; lia). Qed.

Lemma number_after_placeholder prev post :
  isWordAt (first post) = false ->
  replaceFrom numberRe "NUMBER" 0 prev post = replaceAll numberRe "NUMBER" post.
Proof.
  intros Hpost. unfold replaceAll.
  destruct post as [|a post]; [now rewrite !replaceFrom_empty by (simpl; lia)|].
  apply replaceFrom_prev; apply matchAt_number_nondigit, negb_true_iff,
    nonword_nondigit, Hpost.
Qed.

Lemma spaces_prev prev prev' s :
  replaceFrom spacesRe " " 0 prev s = replaceFrom spacesRe " " 0 prev' s.
Proof. destruct s; reflexivity. Qed.

Lemma replaceFrom_snoc_delimiter re repl c p prev :
  delimits re c = true -> (1 <= minLen re)%nat ->
  replaceFrom re repl 0 prev (p +:+ String c "") =
  replaceFrom re repl 0 prev p +:+ String c "".
Proof.
  intros Hd Hmin. rewrite replaceFrom_delimited by (assumption || lia).
  now rewrite replaceFrom_empty.
Qed.

(** The number rule leaves the placeholder alone and works on both sides
    of it independently. *)
Lemma number_rule_around_placeholder A B :
  isWordAt (lastOr None A) = false -> isWordAt (first B) = false ->
  replaceAll numberRe "NUMBER" (A +:+ "TIMESTAMP_MS" +:+ B) =
  replaceAll numberRe "NUMBER" A +:+ "TIMESTAMP_MS" +:+ replaceAll numberRe "NUMBER" B.
Proof.
  intros HA HB.
  assert (forall prev, replaceFrom numberRe "NUMBER" 0 prev ("TIMESTAMP_MS" +:+ B) =
                       "TIMESTAMP_MS" +:+ replaceAll numberRe "NUMBER" B) as Hmid.
  { intros prev.
    rewrite (replaceFrom_copy_prefix numberRe "NUMBER" (fun a => negb (digit a)))
      by (try reflexivity; intros; now apply matchAt_number_nondigit).
    now rewrite number_after_placeholder. }
  unfold replaceAll at 1 2. destruct (decide (A = "")) as [->|Hne].
  - change ("" +:+ "TIMESTAMP_MS" +:+ B) with ("TIMESTAMP_MS" +:+ B).
    rewrite Hmid. reflexivity.
  - destruct (lastOr_decompose A Hne) as (p & c & -> & Hlast).
    rewrite Hlast in HA. cbn [isWordAt] in HA.
    rewrite replaceFrom_snoc_delimiter by (try apply delimits_number; try exact HA; simpl; lia).
    rewrite !append_assoc.
    change (String c "" +:+ "TIMESTAMP_MS" +:+ B) with (String c ("TIMESTAMP_MS" +:+ B)).
    rewrite replaceFrom_delimited by (try apply delimits_number; try exact HA; simpl; lia).
    rewrite Hmid. reflexivity.
Qed.

(** So does the white-space rule, whatever surrounds the placeholder. *)
Lemma spaces_rule_around_placeholder A B :
  replaceAll spacesRe " " (A +:+ "TIMESTAMP_MS" +:+ B) =
  replaceAll spacesRe " " A +:+ "TIMESTAMP_MS" +:+ replaceAll spacesRe " " B.
Proof.
  unfold replaceAll.
  change ("TIMESTAMP_MS" +:+ B) with (String "T" ("IMESTAMP_MS" +:+ B)).
  rewrite replaceFrom_delimited by (reflexivity || simpl; lia).
  rewrite (replaceFrom_copy_prefix spacesRe " " (fun a => negb (space a)))
    by (try reflexivity; intros; now apply matchAt_spaces_nonspace).
  rewrite (spaces_prev (lastOr _ _) None). reflexivity.
Qed.

(** What the 13-digit rule leaves at the two ends of its output. *)
Lemma timestampMs_keeps_last pre :
  isWordAt (lastOr None pre) = false ->
  isWordAt (lastOr None (replaceAll timestampMsRe "TIMESTAMP_MS" pre)) = false.
Proof.
  intros Hpre. unfold replaceAll. destruct (decide (pre = "")) as [->|Hne].
  - now rewrite replaceAll_empty_timestampMs.
  - destruct (lastOr_decompose pre Hne) as (p & c & -> & Hlast).
    rewrite Hlast in Hpre. cbn [isWordAt] in Hpre.
    rewrite replaceFrom_snoc_delimiter
      by (try apply delimits_timestampMs; try exact Hpre; simpl; lia).
    rewrite lastOr_append. exact Hpre.
Qed.

Lemma timestampMs_keeps_first post :
  isWordAt (first post) = false ->
  isWordAt (first (replaceAll timestampMsRe "TIMESTAMP_MS" post)) = false.
Proof.
  intros Hpost. unfold replaceAll. destruct post as [|a post].
  - now rewrite replaceAll_empty_timestampMs.
  - cbn [replaceFrom].
    rewrite matchAt_timestampMs_nondigit by now apply nonword_nondigit.
    exact Hpost.
Qed.

(** ** Lowercasing and trimming text that has nothing to change *)

Lemma toLowerCase_fixed (P : ascii -> bool) s :
  (forall a, P a = true -> toLowerChar a = a) ->
  allChars P s = true -> toLowerCase s = s.
Proof.
  intros HP. induction s as [|a s IH]; [reflexivity|]. cbn [allChars toLowerCase].
  intros H. apply andb_prop in H as [Ha Hs]. now rewrite (HP a Ha), IH.
Qed.



(** The rules of [normalizeMessage], in the order in which it applies them. *)
Lemma normalizeMessage_rules message :
  normalizeMessage message =
  replaceAll spacesRe " "
    (replaceAll numberRe "NUMBER"
       (replaceAll timestampMsRe "TIMESTAMP_MS"
          (replaceAll timestampRe "TIMESTAMP"
             (replaceAll uuidRe "UUID" (trim (toLowerCase message)))))).
Proof.
  unfold normalizeMessage. destruct message as [|a message]; reflexivity.
Qed.

(** ** The rule for ISO-8601 timestamps *)

Lemma timestamp_delimiter c :
  delimits timestampRe c = true ->
  digit c = false /\ lit "." c = false /\ lit_i "z" "Z" c = false.
Proof.
  destruct c as [[] [] [] [] [] [] [] []]; vm_compute; intros H;
    repeat split; congruence.
Qed.

Lemma matchAt_timestamp_nondigit prev a s :
  digit a = false -> matchAt timestampRe prev (String a s) = None.
Proof.
  intros Ha. unfold matchAt, timestampRe, rseq.
  cbn [fold_right rmatch Nat.iter nat_rect]. now rewrite Ha.
Qed.

Lemma timestamp_after_match prev post :
  delimitedBy timestampRe (first post) = true ->
  replaceFrom timestampRe "TIMESTAMP" 0 prev post =
  replaceAll timestampRe "TIMESTAMP" post.
Proof.
  intros Hpost. unfold replaceAll. destruct post as [|a post].
  - now rewrite !replaceFrom_empty by (simpl; lia).
  - cbn [first delimitedBy] in Hpost. apply timestamp_delimiter in Hpost as [Hd _].
    apply replaceFrom_prev; now apply matchAt_timestamp_nondigit.
Qed.

Ltac split_classes s H :=
  repeat (destruct s as [|? s]; [discriminate H|];
          cbn [matchesClasses] in H;
          let Hc := fresh "Hc" in apply andb_prop in H as [Hc H]);
  destruct s; [clear H | discriminate H].

Ltac use_class_facts :=
  repeat match goal with
         | H : ?cls ?a = _ |- context [?cls ?a] => rewrite H
         end.

Lemma append_nil_l (s : string) : "" +:+ s = s.
Proof. reflexivity. Qed.

Ltac run_matcher :=
  repeat rewrite ?append_cons, ?append_nil_l;
  unfold rseq; cbn [fold_right rmatch Nat.iter nat_rect]; use_class_facts.

(** What the two optional groups do once the instant has been matched. *)
Lemma optional_groups prev frac zone post :
  isFraction frac = true -> isZone zone = true ->
  delimitedBy timestampRe (first post) = true ->
  rmatch (rseq [ROpt (RSeq (RChar (lit ".")) (RRepeat 3 (RChar digit)));
                ROpt (RChar (lit_i "z" "Z"))])
         (fun _ rest => Some rest) prev (frac +:+ zone +:+ post) = Some post.
Proof.
  intros Hf Hz Hpost.
  assert (post = "" \/ exists c post', post = String c post' /\
            lit "." c = false /\ lit_i "z" "Z" c = false) as Hp.
  { destruct post as [|c post']; [now left|right]. exists c, post'.
    cbn [first delimitedBy] in Hpost. apply timestamp_delimiter in Hpost. tauto. }
  assert (lit "." "z" = false) as Hz1 by reflexivity.
  assert (lit "." "Z" = false) as Hz2 by reflexivity.
  assert (lit_i "z" "Z" "z" = true) as Hz3 by reflexivity.
  assert (lit_i "z" "Z" "Z" = true) as Hz4 by reflexivity.
  unfold isZone in Hz. apply orb_prop in Hz as [Hz|Hz];
    [apply orb_prop in Hz as [Hz|Hz]|]; apply String.eqb_eq in Hz; subst zone;
  (unfold isFraction in Hf; apply orb_prop in Hf as [Hf|Hf];
    [apply String.eqb_eq in Hf; subst frac | split_classes frac Hf]);
  (destruct Hp as [->|(c & post' & -> & Hp1 & Hp2)]);
  run_matcher; reflexivity.
Qed.

(** The eleven leading items of [timestampRe] consume an instant. *)
Lemma rmatch_instant (tail : list regex) k prev core rest :
  matchesClasses instantClasses core = true ->
  rmatch (rseq ([RRepeat 4 (RChar digit); RChar (lit "-");
                 RRepeat 2 (RChar digit); RChar (lit "-");
                 RRepeat 2 (RChar digit); RChar (lit_i "t" "T");
                 RRepeat 2 (RChar digit); RChar (lit ":");
                 RRepeat 2 (RChar digit); RChar (lit ":");
                 RRepeat 2 (RChar digit)] ++ tail))
         k prev (core +:+ rest) =
  rmatch (rseq tail) k (lastOr prev core) rest.
Proof.
  intros Hcore. unfold instantClasses in Hcore. split_classes core Hcore.
  repeat rewrite ?append_cons, ?append_nil_l.
  unfold rseq. cbn [app fold_right rmatch Nat.iter nat_rect lastOr].
  use_class_facts. reflexivity.
Qed.

(** An instant, an optional fraction of three digits and an optional zone
    designator match as a whole when a delimiter or the end follows. *)
Lemma matchAt_timestamp prev core frac zone post :
  matchesClasses instantClasses core = true ->
  isFraction frac = true -> isZone zone = true ->
  delimitedBy timestampRe (first post) = true ->
  matchAt timestampRe prev (core +:+ frac +:+ zone +:+ post) = Some post.
Proof.
  intros Hcore Hf Hz Hpost. unfold matchAt.
  change timestampRe with
    (rseq ([RRepeat 4 (RChar digit); RChar (lit "-");
            RRepeat 2 (RChar digit); RChar (lit "-");
            RRepeat 2 (RChar digit); RChar (lit_i "t" "T");
            RRepeat 2 (RChar digit); RChar (lit ":");
            RRepeat 2 (RChar digit); RChar (lit ":");
            RRepeat 2 (RChar digit)] ++
           [ROpt (RSeq (RChar (lit ".")) (RRepeat 3 (RChar digit)));
            ROpt (RChar (lit_i "z" "Z"))])).
  rewrite rmatch_instant by exact Hcore.
  now apply optional_groups.
Qed.

Lemma delimitedBy_lastOr_snoc re p c :
  delimitedBy re (lastOr None (p +:+ String c "")) = delimits re c.
Proof. now rewrite lastOr_append. Qed.

Lemma timestamp_replaced_here prev core frac zone post :
  matchesClasses instantClasses core = true ->
  isFraction frac = true -> isZone zone = true ->
  delimitedBy timestampRe (first post) = true ->
  replaceFrom timestampRe "TIMESTAMP" 0 prev (core +:+ frac +:+ zone +:+ post) =
  "TIMESTAMP" +:+ replaceAll timestampRe "TIMESTAMP" post.
Proof.
  intros Hcore Hf Hz Hpost.
  pose proof (matchAt_timestamp prev core frac zone post Hcore Hf Hz Hpost) as Hm.
  assert (exists a m, core +:+ frac +:+ zone = String a m) as (a & m & Heq).
  { destruct core as [|a core]; [discriminate Hcore|].
    exists a, (core +:+ frac +:+ zone). now rewrite append_cons. }
  replace (core +:+ frac +:+ zone +:+ post) with (String a m +:+ post) in *
    by (rewrite <- Heq, !append_assoc; reflexivity).
  rewrite (replaceFrom_match _ _ _ _ _ _ Hm).
  now rewrite timestamp_after_match.
Qed.

Lemma timestamp_replaced_in_context pre core frac zone post :
  matchesClasses instantClasses core = true ->
  isFraction frac = true -> isZone zone = true ->
  delimitedBy timestampRe (lastOr None pre) = true ->
  delimitedBy timestampRe (first post) = true ->
  replaceAll timestampRe "TIMESTAMP" (pre +:+ core +:+ frac +:+ zone +:+ post) =
  replaceAll timestampRe "TIMESTAMP" pre +:+ "TIMESTAMP" +:+
  replaceAll timestampRe "TIMESTAMP" post.
Proof.
  intros Hcore Hf Hz Hpre Hpost. unfold replaceAll at 1 2.
  destruct (decide (pre = "")) as [->|Hne].
  - rewrite append_nil_l, replaceFrom_empty by (simpl; lia).
    now apply timestamp_replaced_here.
  - destruct (lastOr_decompose pre Hne) as (p & c & -> & Hlast).
    rewrite delimitedBy_lastOr_snoc in Hpre.
    rewrite replaceFrom_snoc_delimiter by (try exact Hpre; simpl; lia).
    rewrite !append_assoc.
    change (String c "" +:+ core +:+ frac +:+ zone +:+ post)
      with (String c (core +:+ frac +:+ zone +:+ post)).
    rewrite replaceFrom_delimited by (try exact Hpre; simpl; lia).
    rewrite timestamp_replaced_here by assumption. reflexivity.
Qed.

(** ** A message that is a timestamp *)

Lemma toLowerCase_append s1 s2 :
  toLowerCase (s1 +:+ s2) = toLowerCase s1 +:+ toLowerCase s2.
Proof.
  induction s1 as [|a s1 IH]; [reflexivity|].
  rewrite append_cons. cbn [toLowerCase]. now rewrite IH, append_cons.
Qed.

Lemma matchesClasses_length cs : forall s,
  matchesClasses cs s = true -> String.length s = length cs.
Proof.
  induction cs as [|cls cs IH]; intros [|a s] H; try discriminate H; [reflexivity|].
  cbn [matchesClasses] in H. apply andb_prop in H as [_ H].
  cbn [String.length length]. now rewrite (IH s H).
Qed.

Lemma matchesClasses_lower cs : forall s,
  Forall (fun cls : ascii -> bool => forall a, cls a = true -> cls (toLowerChar a) = true) cs ->
  matchesClasses cs s = true -> matchesClasses cs (toLowerCase s) = true.
Proof.
  induction cs as [|cls cs IH]; intros [|a s] Hcs H; try discriminate H; [reflexivity|].
  cbn [matchesClasses toLowerCase] in *. apply andb_prop in H as [Ha H].
  inversion Hcs as [|? ? Hcls Hcs']; subst.
  now rewrite (Hcls a Ha), (IH s Hcs' H).
Qed.

Lemma matchesClasses_allChars (P : ascii -> bool) cs : forall s,
  Forall (fun cls : ascii -> bool => forall a, cls a = true -> P a = true) cs ->
  matchesClasses cs s = true -> allChars P s = true.
Proof.
  induction cs as [|cls cs IH]; intros [|a s] Hcs H; try discriminate H; [reflexivity|].
  cbn [matchesClasses allChars] in *. apply andb_prop in H as [Ha H].
  inversion Hcs as [|? ? Hcls Hcs']; subst.
  now rewrite (Hcls a Ha), (IH s Hcs' H).
Qed.

(** The character classes of a timestamp are closed under lowercasing and
    contain no white space. *)
Lemma timestamp_classes_lower :
  Forall (fun cls : ascii -> bool => forall a, cls a = true -> cls (toLowerChar a) = true)
         (instantClasses ++ [lit "."; digit; digit; digit]).
Proof. repeat constructor; intros a; by_cases_on_char a. Qed.

Lemma timestamp_classes_nonspace :
  Forall (fun cls : ascii -> bool =>
            forall a, cls a = true -> negb (isWhiteSpace a) = true)
         (instantClasses ++ [lit "."; digit; digit; digit]).
Proof. repeat constructor; intros a; by_cases_on_char a. Qed.

Lemma Forall_app_l {A} (P : A -> Prop) l1 l2 : Forall P (l1 ++ l2) -> Forall P l1.
Proof. intros H. now apply Forall_app in H. Qed.

Lemma Forall_app_r {A} (P : A -> Prop) l1 l2 : Forall P (l1 ++ l2) -> Forall P l2.
Proof. intros H. now apply Forall_app in H. Qed.

Lemma isFraction_cases frac :
  isFraction frac = true ->
  frac = "" \/ matchesClasses [lit "."; digit; digit; digit] frac = true.
Proof.
  unfold isFraction. intros H. apply orb_prop in H as [H|H]; [left|now right].
  now apply String.eqb_eq.
Qed.

Lemma isZone_cases zone : isZone zone = true -> zone = "" \/ zone = "z" \/ zone = "Z".
Proof.
  unfold isZone. intros H.
  apply orb_prop in H as [H|H]; [apply orb_prop in H as [H|H]|];
    apply String.eqb_eq in H; tauto.
Qed.

(** Lowercasing keeps the shape of a timestamp. *)
Lemma timestamp_lower core frac zone :
  matchesClasses instantClasses core = true ->
  isFraction frac = true -> isZone zone = true ->
  matchesClasses instantClasses (toLowerCase core) = true /\
  isFraction (toLowerCase frac) = true /\ isZone (toLowerCase zone) = true.
Proof.
  intros Hcore Hf Hz. split; [|split].
  - apply matchesClasses_lower; [|exact Hcore].
    exact (Forall_app_l _ _ _ timestamp_classes_lower).
  - destruct (isFraction_cases frac Hf) as [->|H]; [reflexivity|].
    unfold isFraction. apply orb_true_intro. right.
    apply matchesClasses_lower; [|exact H].
    exact (Forall_app_r _ _ _ timestamp_classes_lower).
  - destruct (isZone_cases zone Hz) as [->|[->| ->]]; reflexivity.
Qed.

(** A timestamp has no white space and is shorter than a UUID. *)
Lemma timestamp_text core frac zone :
  matchesClasses instantClasses core = true ->
  isFraction frac = true -> isZone zone = true ->
  allChars (fun a => negb (isWhiteSpace a)) (core +:+ frac +:+ zone) = true /\
  (String.length (core +:+ frac +:+ zone) < 36)%nat.
Proof.
  intros Hcore Hf Hz. split.
  - rewrite !allChars_append.
    rewrite (matchesClasses_allChars _ instantClasses core
               (Forall_app_l _ _ _ timestamp_classes_nonspace) Hcore).
    destruct (isFraction_cases frac Hf) as [->|H];
      [|rewrite (matchesClasses_allChars _ _ frac
                   (Forall_app_r _ _ _ timestamp_classes_nonspace) H)];
      destruct (isZone_cases zone Hz) as [->|[->| ->]]; reflexivity.
  - rewrite !length_append, (matchesClasses_length _ _ Hcore).
    destruct (isFraction_cases frac Hf) as [->|H];
      [|rewrite (matchesClasses_length _ _ H)];
      destruct (isZone_cases zone Hz) as [->|[->| ->]]; simpl; lia.
Qed.


(** ** Text between delimiters *)

Lemma matchAt_at_delimiter re c prev s :
  delimits re c = true -> (1 <= minLen re)%nat ->
  matchAt re prev (String c s) = None.
Proof.
  intros Hd Hmin.
  destruct (matchAt_delimited c s re prev "" Hd) as [[H _]|(q & _ & _ & H)].
  - exact H.
  - rewrite matchAt_short in H by (simpl; lia). discriminate H.
Qed.

Lemma replaceAll_keeps_first re repl B :
  delimitedBy re (first B) = true -> (1 <= minLen re)%nat ->
  first (replaceAll re repl B) = first B.
Proof.
  intros Hd Hmin. unfold replaceAll. destruct B as [|c B].
  - now rewrite replaceFrom_empty.
  - cbn [replaceFrom]. now rewrite matchAt_at_delimiter.
Qed.

Lemma replaceAll_keeps_last re repl A :
  delimitedBy re (lastOr None A) = true -> (1 <= minLen re)%nat ->
  lastOr None (replaceAll re repl A) = lastOr None A.
Proof.
  intros Hd Hmin. unfold replaceAll. destruct (decide (A = "")) as [->|Hne].
  - now rewrite replaceFrom_empty.
  - destruct (lastOr_decompose A Hne) as (p & c & -> & Hlast).
    rewrite delimitedBy_lastOr_snoc in Hd.
    rewrite replaceFrom_snoc_delimiter by assumption.
    now rewrite !lastOr_append.
Qed.

Lemma replaceFrom_after_delimited re repl prev B :
  delimitedBy re (first B) = true -> (1 <= minLen re)%nat ->
  replaceFrom re repl 0 prev B = replaceAll re repl B.
Proof.
  intros Hd Hmin. unfold replaceAll. destruct B as [|c B].
  - now rewrite !replaceFrom_empty.
  - apply replaceFrom_prev; now apply matchAt_at_delimiter.
Qed.

Lemma replaceFrom_inert re repl B m : forall prev,
  inert re B m ->
  replaceFrom re repl 0 prev (m +:+ B) =
  m +:+ replaceFrom re repl 0 (lastOr prev m) B.
Proof.
  induction m as [|a m IH]; intros prev Hm; [reflexivity|].
  destruct Hm as [Ha Hm]. rewrite !append_cons. cbn [replaceFrom lastOr].
  now rewrite Ha, IH.
Qed.

(** A text shorter than every match, in front of a delimiter, is inert. *)
Lemma inert_short re B m :
  (String.length m < minLen re)%nat -> delimitedBy re (first B) = true ->
  inert re B m.
Proof.
  intros Hlen HB. induction m as [|a m IH]; [exact I|]. split.
  - intros prev. destruct B as [|c B].
    + rewrite append_empty_r. now apply matchAt_short.
    + cbn [first delimitedBy] in HB. rewrite <- append_cons.
      destruct (matchAt_delimited c B re prev (String a m) HB) as [[H _]|(q & _ & _ & H)].
      * exact H.
      * rewrite matchAt_short in H by exact Hlen. discriminate H.
  - apply IH. simpl in Hlen. lia.
Qed.

(** So is a text made of characters at which no match can start. *)
Lemma inert_chars re (P : ascii -> bool) B m :
  (forall prev a s, P a = true -> matchAt re prev (String a s) = None) ->
  allChars P m = true -> inert re B m.
Proof.
  intros HP. induction m as [|a m IH]; [intros _; exact I|].
  cbn [allChars]. intros H. apply andb_prop in H as [Ha Hm]. split.
  - intros prev. now apply HP.
  - now apply IH.
Qed.

(** An inert text between two delimiters is copied, and the texts before
    and after it are treated on their own. *)
Lemma replaceAll_around re repl A m B :
  (1 <= minLen re)%nat ->
  delimitedBy re (lastOr None A) = true -> delimitedBy re (first B) = true ->
  inert re B m ->
  replaceAll re repl (A +:+ m +:+ B) =
  replaceAll re repl A +:+ m +:+ replaceAll re repl B.
Proof.
  intros Hmin HA HB Hm.
  assert (forall prev, replaceFrom re repl 0 prev (m +:+ B) =
                       m +:+ replaceAll re repl B) as Hmid.
  { intros prev. rewrite replaceFrom_inert by exact Hm.
    now rewrite replaceFrom_after_delimited. }
  unfold replaceAll at 1 2. destruct (decide (A = "")) as [->|Hne].
  - now rewrite append_nil_l, replaceFrom_empty, Hmid.
  - destruct (lastOr_decompose A Hne) as (p & c & -> & Hlast).
    rewrite delimitedBy_lastOr_snoc in HA.
    rewrite replaceFrom_snoc_delimiter by assumption.
    rewrite !append_assoc.
    change (String c "" +:+ m +:+ B) with (String c (m +:+ B)).
    rewrite replaceFrom_delimited by (assumption || lia).
    now rewrite Hmid.
Qed.

(** ** Lowercasing and trimming around a text without white space *)

Lemma trimStart_append A X a :
  first X = Some a -> isWhiteSpace a = false ->
  trimStart (A +:+ X) = trimStart A +:+ X.
Proof.
  intros HX Ha. induction A as [|b A IH].
  - rewrite append_nil_l. destruct X as [|a' X]; [discriminate HX|].
    injection HX as ->. cbn [trimStart]. now rewrite Ha.
  - rewrite append_cons. cbn [trimStart]. destruct (isWhiteSpace b); [exact IH | reflexivity].
Qed.

Lemma trimEnd_append X B a :
  lastOr None X = Some a -> isWhiteSpace a = false ->
  trimEnd (X +:+ B) = X +:+ trimEnd B.
Proof.
  intros HX Ha. induction X as [|b X IH]; [discriminate HX|].
  rewrite !append_cons. cbn [trimEnd]. destruct X as [|b' X].
  - cbn [lastOr] in HX. injection HX as ->. rewrite append_nil_l.
    destruct (trimEnd B); [now rewrite Ha | reflexivity].
  - rewrite IH by exact HX. now rewrite append_cons.
Qed.

Lemma lastOr_nonempty prev prev' s : s <> "" -> lastOr prev s = lastOr prev' s.
Proof. destruct s; [congruence | reflexivity]. Qed.

Lemma allChars_first P s a : allChars P s = true -> first s = Some a -> P a = true.
Proof.
  destruct s as [|b s]; [discriminate|]. cbn [allChars first].
  intros H [= <-]. now apply andb_prop in H as [H _].
Qed.

Lemma allChars_last P s a : forall prev,
  allChars P s = true -> s <> "" -> lastOr prev s = Some a -> P a = true.
Proof.
  induction s as [|b s IH]; intros prev H Hne Hl; [congruence|].
  cbn [allChars lastOr] in *. apply andb_prop in H as [Hb Hs].
  destruct s as [|b' s].
  - cbn [lastOr] in Hl. now injection Hl as <-.
  - apply (IH (Some b)); [exact Hs | discriminate | exact Hl].
Qed.

Lemma first_nonempty s : s <> "" -> exists a, first s = Some a.
Proof. destruct s as [|a s]; [congruence | now exists a]. Qed.

Lemma lastOr_some s : s <> "" -> exists a, lastOr None s = Some a.
Proof.
  intros Hne. destruct (lastOr_decompose s Hne) as (p & c & _ & H). now exists c.
Qed.

(** Trimming leaves a text without white space where it stands. *)
Lemma trim_around A m B :
  m <> "" -> allChars (fun a => negb (isWhiteSpace a)) m = true ->
  trim (A +:+ m +:+ B) = trimStart A +:+ m +:+ trimEnd B.
Proof.
  intros Hne Hm. unfold trim.
  destruct (first_nonempty m Hne) as [a Ha].
  destruct (lastOr_some m Hne) as [z Hz].
  rewrite (trimStart_append A (m +:+ B) a).
  - rewrite <- append_assoc. rewrite (trimEnd_append (trimStart A +:+ m) B z).
    + now rewrite append_assoc.
    + rewrite lastOr_append. now rewrite (lastOr_nonempty _ None m Hne).
    + apply negb_true_iff. exact (allChars_last _ m z None Hm Hne Hz).
  - destruct m; [congruence | exact Ha].
  - apply negb_true_iff. exact (allChars_first _ m a Hm Ha).
Qed.

(** ** Separators *)

Lemma separator_delimits c :
  isSeparator c = true ->
  delimits uuidRe c = true /\ delimits timestampRe c = true /\
  delimits timestampMsRe c = true /\ delimits numberRe c = true /\
  wordChar c = false /\ isSeparator (toLowerChar c) = true.
Proof.
  destruct c as [[] [] [] [] [] [] [] []]; vm_compute; intros H;
    repeat split; congruence.
Qed.

Lemma lastOr_toLowerCase s : forall prev,
  lastOr (option_map toLowerChar prev) (toLowerCase s) =
  option_map toLowerChar (lastOr prev s).
Proof.
  induction s as [|a s IH]; intros prev; [reflexivity|].
  cbn [toLowerCase lastOr]. exact (IH (Some a)).
Qed.

Lemma first_toLowerCase s : first (toLowerCase s) = option_map toLowerChar (first s).
Proof. now destruct s. Qed.

Lemma separatedBy_lower o :
  separatedBy o = true -> separatedBy (option_map toLowerChar o) = true.
Proof.
  destruct o as [c|]; [|reflexivity]. cbn [separatedBy option_map].
  intros H. now apply separator_delimits in H.
Qed.

Lemma lastOr_trimStart s :
  lastOr None (trimStart s) = None \/ lastOr None (trimStart s) = lastOr None s.
Proof.
  induction s as [|a s IH]; [now left|]. cbn [trimStart].
  destruct (isWhiteSpace a); [|now right].
  destruct IH as [H|H]; [now left|].
  destruct s as [|b s]; [now left|]. right. rewrite H. reflexivity.
Qed.

Lemma first_trimEnd s : first (trimEnd s) = None \/ first (trimEnd s) = first s.
Proof.
  destruct s as [|a s]; [now left|]. cbn [trimEnd].
  destruct (trimEnd s); [destruct (isWhiteSpace a); [now left|now right]|now right].
Qed.

(** The separators around a text survive lowercasing and trimming. *)
Lemma separated_prepared pre post :
  separatedBy (lastOr None pre) = true -> separatedBy (first post) = true ->
  separatedBy (lastOr None (trimStart (toLowerCase pre))) = true /\
  separatedBy (first (trimEnd (toLowerCase post))) = true.
Proof.
  intros Hpre Hpost. split.
  - destruct (lastOr_trimStart (toLowerCase pre)) as [-> | ->]; [reflexivity|].
    change (lastOr None (toLowerCase pre))
      with (lastOr (option_map toLowerChar None) (toLowerCase pre)).
    rewrite lastOr_toLowerCase. now apply separatedBy_lower.
  - destruct (first_trimEnd (toLowerCase post)) as [-> | ->]; [reflexivity|].
    rewrite first_toLowerCase. now apply separatedBy_lower.
Qed.

Lemma separated_delimited o :
  separatedBy o = true ->
  delimitedBy uuidRe o = true /\ delimitedBy timestampRe o = true /\
  delimitedBy timestampMsRe o = true /\ delimitedBy numberRe o = true /\
  isWordAt o = false.
Proof.
  destruct o as [c|]; [|now repeat split]. cbn [separatedBy delimitedBy isWordAt].
  intros H. apply separator_delimits in H. tauto.
Qed.

(** A rule keeps the separators at the two sides of the text it is applied
    to. *)
Lemma separated_after_rule re repl A B :
  (forall o, separatedBy o = true -> delimitedBy re o = true) ->
  (1 <= minLen re)%nat ->
  separatedBy (lastOr None A) = true -> separatedBy (first B) = true ->
  separatedBy (lastOr None (replaceAll re repl A)) = true /\
  separatedBy (first (replaceAll re repl B)) = true.
Proof.
  intros Hre Hmin HA HB. split.
  - rewrite replaceAll_keeps_last by (try apply Hre; assumption). exact HA.
  - rewrite replaceAll_keeps_first by (try apply Hre; assumption). exact HB.
Qed.

(** The white-space rule around a text without white space. *)
Lemma spaces_rule_around A a m B :
  allChars (fun c => negb (space c)) (String a m) = true ->
  replaceAll spacesRe " " (A +:+ String a m +:+ B) =
  replaceAll spacesRe " " A +:+ String a m +:+ replaceAll spacesRe " " B.
Proof.
  intros Hm. unfold replaceAll. rewrite append_cons.
  cbn [allChars] in Hm. apply andb_prop in Hm as [Ha Hm].
  rewrite replaceFrom_delimited.
  - rewrite (replaceFrom_copy_prefix spacesRe " " (fun c => negb (space c)))
      by (try exact Hm; intros; now apply matchAt_spaces_nonspace).
    rewrite (spaces_prev (lastOr _ _) None). now rewrite append_cons.
  - unfold delimits, spacesRe. cbn [alphabet hasBoundary]. now rewrite Ha.
  - simpl. lia.
  - lia.
Qed.

(** ** The normaliser around a 13-digit integer and around a timestamp *)

Lemma allChars_impl (P Q : ascii -> bool) s :
  (forall a, P a = true -> Q a = true) -> allChars P s = true -> allChars Q s = true.
Proof.
  intros HPQ. induction s as [|a s IH]; [reflexivity|]. cbn [allChars].
  intros H. apply andb_prop in H as [Ha Hs]. now rewrite (HPQ a Ha), IH.
Qed.

Lemma normalizeMessage_prepared message :
  normalizeMessage message = normalizeRules (trim (toLowerCase message)).
Proof. apply normalizeMessage_rules. Qed.

(** Rules 4 to 6 around thirteen digits between word boundaries. *)
Lemma finishing_rules_around_digits pre d post :
  String.length d = 13%nat -> allChars digit d = true ->
  isWordAt (lastOr None pre) = false -> isWordAt (first post) = false ->
  replaceAll spacesRe " " (replaceAll numberRe "NUMBER"
    (replaceAll timestampMsRe "TIMESTAMP_MS" (pre +:+ d +:+ post))) =
  replaceAll spacesRe " " (replaceAll numberRe "NUMBER"
    (replaceAll timestampMsRe "TIMESTAMP_MS" pre)) +:+ "TIMESTAMP_MS" +:+
  replaceAll spacesRe " " (replaceAll numberRe "NUMBER"
    (replaceAll timestampMsRe "TIMESTAMP_MS" post)).
Proof.
  intros Hlen Hall Hpre Hpost.
  rewrite (timestampMs_replaced_in_context pre d post Hlen Hall Hpre Hpost).
  rewrite number_rule_around_placeholder
    by (now apply timestampMs_keeps_last || now apply timestampMs_keeps_first).
  apply spaces_rule_around_placeholder.
Qed.

Lemma normalize_around_digits pre d post :
  String.length d = 13%nat -> allChars digit d = true ->
  separatedBy (lastOr None pre) = true -> separatedBy (first post) = true ->
  normalizeMessage (pre +:+ d +:+ post) =
  normalizeRules (trimStart (toLowerCase pre)) +:+ "TIMESTAMP_MS" +:+
  normalizeRules (trimEnd (toLowerCase post)).
Proof.
  intros Hlen Hall Hpre Hpost.
  rewrite normalizeMessage_prepared, !toLowerCase_append.
  rewrite (toLowerCase_fixed digit d) by (exact digit_not_upper || exact Hall).
  assert (d <> "") as Hne by (destruct d; [discriminate Hlen | discriminate]).
  rewrite trim_around;
    [| exact Hne
     | apply (allChars_impl digit); [|exact Hall];
       intros a Ha; now rewrite digit_not_space ].
  destruct (separated_prepared pre post Hpre Hpost) as [HA HB].
  set (A := trimStart (toLowerCase pre)) in *.
  set (B := trimEnd (toLowerCase post)) in *.
  unfold normalizeRules.
  rewrite (replaceAll_around uuidRe "UUID" A d B);
    [| simpl; lia | now apply separated_delimited | now apply separated_delimited
     | apply inert_short; [rewrite Hlen; change (13 < 36)%nat; lia
                          | now apply separated_delimited] ].
  assert (separatedBy (lastOr None (replaceAll uuidRe "UUID" A)) = true /\
          separatedBy (first (replaceAll uuidRe "UUID" B)) = true) as [HA2 HB2]
    by (apply separated_after_rule;
        [intros o Ho; now apply separated_delimited | simpl; lia
        | exact HA | exact HB]).
  rewrite (replaceAll_around timestampRe "TIMESTAMP");
    [| simpl; lia | now apply separated_delimited | now apply separated_delimited
     | apply inert_short; [rewrite Hlen; change (13 < 19)%nat; lia
                          | now apply separated_delimited] ].
  assert (separatedBy (lastOr None (replaceAll timestampRe "TIMESTAMP" (replaceAll uuidRe "UUID" A))) = true /\
          separatedBy (first (replaceAll timestampRe "TIMESTAMP" (replaceAll uuidRe "UUID" B))) = true) as [HA3 HB3]
    by (apply separated_after_rule;
        [intros o Ho; now apply separated_delimited | simpl; lia
        | exact HA2 | exact HB2]).
  apply finishing_rules_around_digits; try assumption; now apply separated_delimited.
Qed.

Lemma normalize_around_timestamp pre core frac zone post :
  matchesClasses instantClasses core = true ->
  isFraction frac = true -> isZone zone = true ->
  separatedBy (lastOr None pre) = true -> separatedBy (first post) = true ->
  normalizeMessage (pre +:+ core +:+ frac +:+ zone +:+ post) =
  normalizeRules (trimStart (toLowerCase pre)) +:+ "TIMESTAMP" +:+
  normalizeRules (trimEnd (toLowerCase post)).
Proof.
  intros Hcore Hf Hz Hpre Hpost.
  rewrite normalizeMessage_prepared, !toLowerCase_append.
  destruct (timestamp_lower core frac zone Hcore Hf Hz) as (Hcore' & Hf' & Hz').
  destruct (timestamp_text _ _ _ Hcore' Hf' Hz') as [Hns Hlen].
  destruct (separated_prepared pre post Hpre Hpost) as [HA HB].
  set (c := toLowerCase core) in *. set (f := toLowerCase frac) in *.
  set (z := toLowerCase zone) in *.
  assert (c +:+ f +:+ z <> "") as Hne
    by (destruct c; [discriminate Hcore' | rewrite append_cons; discriminate]).
  replace (toLowerCase pre +:+ c +:+ f +:+ z +:+ toLowerCase post)
    with (toLowerCase pre +:+ (c +:+ f +:+ z) +:+ toLowerCase post)
    by (now rewrite !append_assoc).
  rewrite trim_around by assumption.
  set (A := trimStart (toLowerCase pre)) in *.
  set (B := trimEnd (toLowerCase post)) in *.
  unfold normalizeRules.
  rewrite (replaceAll_around uuidRe "UUID" A (c +:+ f +:+ z) B);
    [| simpl; lia | now apply separated_delimited | now apply separated_delimited
     | apply inert_short; [exact Hlen | now apply separated_delimited] ].
  assert (separatedBy (lastOr None (replaceAll uuidRe "UUID" A)) = true /\
          separatedBy (first (replaceAll uuidRe "UUID" B)) = true) as [HA2 HB2]
    by (apply separated_after_rule;
        [intros o Ho; now apply separated_delimited | simpl; lia
        | exact HA | exact HB]).
  rewrite !append_assoc.
  rewrite timestamp_replaced_in_context
    by (assumption || now apply separated_delimited).
  assert (separatedBy (lastOr None (replaceAll timestampRe "TIMESTAMP" (replaceAll uuidRe "UUID" A))) = true /\
          separatedBy (first (replaceAll timestampRe "TIMESTAMP" (replaceAll uuidRe "UUID" B))) = true) as [HA3 HB3]
    by (apply separated_after_rule;
        [intros o Ho; now apply separated_delimited | simpl; lia
        | exact HA2 | exact HB2]).
  rewrite (replaceAll_around timestampMsRe "TIMESTAMP_MS");
    [| simpl; lia | now apply separated_delimited | now apply separated_delimited
     | apply (inert_chars _ (fun a => negb (digit a))); [|reflexivity];
       intros prev a s Ha; apply matchAt_timestampMs_nondigit;
       now apply negb_true_iff ].
  assert (separatedBy (lastOr None (replaceAll timestampMsRe "TIMESTAMP_MS" (replaceAll timestampRe "TIMESTAMP" (replaceAll uuidRe "UUID" A)))) = true /\
          separatedBy (first (replaceAll timestampMsRe "TIMESTAMP_MS" (replaceAll timestampRe "TIMESTAMP" (replaceAll uuidRe "UUID" B)))) = true) as [HA4 HB4]
    by (apply separated_after_rule;
        [intros o Ho; now apply separated_delimited | simpl; lia
        | exact HA3 | exact HB3]).
  rewrite (replaceAll_around numberRe "NUMBER");
    [| simpl; lia | now apply separated_delimited | now apply separated_delimited
     | apply (inert_chars _ (fun a => negb (digit a))); [|reflexivity];
       intros prev a s Ha; now apply matchAt_number_nondigit ].
  apply (spaces_rule_around _ "T" "IMESTAMP"). reflexivity.
Qed.

(** ** The two timestamp rules *)






(** * Further properties of the code *)

(** ** The hash as a polynomial *)

Lemma congruent32_refl x : congruent32 x x.
Proof. exists 0. lia. Qed.

Lemma congruent32_trans x y z : congruent32 x y -> congruent32 y z -> congruent32 x z.
Proof. intros [q1 ->] [q2 ->]. exists (q1 + q2). lia. Qed.

Lemma congruent32_toInt32 x : congruent32 (Int32.toInt32 x) x.
Proof.
  pose proof (toInt32_residue x) as H.
  apply Z.mod_divide in H; [|unfold Int32.modulus; lia]. destruct H as [q Hq].
  exists q. lia.
Qed.

Lemma toInt32_of_congruent x y : congruent32 x y -> Int32.toInt32 x = Int32.toInt32 y.
Proof.
  intros [q ->]. apply toInt32_congr.
  replace (y + q * Int32.modulus - y) with (q * Int32.modulus) by lia.
  apply Z.mod_mul. unfold Int32.modulus. lia.
Qed.

Lemma toInt32_in_range x : Int32.in_range x -> Int32.toInt32 x = x.
Proof.
  unfold Int32.in_range, Int32.toInt32, Int32.modulus, Int32.half_modulus. intros Hx.
  rewrite Z.mod_small by lia. lia.
Qed.

Lemma polynomialFrom_affine codes : forall acc,
  polynomialFrom acc codes = acc * 31 ^ Z.of_nat (length codes) + polynomialFrom 0 codes.
Proof.
  unfold polynomialFrom. induction codes as [|c codes IH]; intros acc.
  - simpl. lia.
  - cbn [fold_left length]. rewrite (IH (acc * 31 + c)), (IH (0 * 31 + c)).
    rewrite Nat2Z.inj_succ, Z.pow_succ_r by lia. lia.
Qed.

Lemma fold_hashStep_congruent codes : forall acc,
  congruent32 (fold_left hashStep codes acc) (polynomialFrom acc codes).
Proof.
  induction codes as [|c codes IH]; intros acc.
  - apply congruent32_refl.
  - cbn [fold_left]. eapply congruent32_trans; [apply IH|].
    unfold polynomialFrom at 2. cbn [fold_left]. fold (polynomialFrom (acc * 31 + c) codes).
    rewrite (polynomialFrom_affine codes (hashStep acc c)),
            (polynomialFrom_affine codes (acc * 31 + c)).
    rewrite hashStep_mul31.
    destruct (congruent32_toInt32 (acc * 31 + c)) as [q ->].
    exists (q * 31 ^ Z.of_nat (length codes)). lia.
Qed.

Lemma charCodes_append s1 s2 : charCodes (s1 +:+ s2) = charCodes s1 ++ charCodes s2.
Proof.
  induction s1 as [|a s1 IH]; [reflexivity|].
  rewrite append_cons. cbn [charCodes app]. now rewrite IH.
Qed.

Lemma length_charCodes s : length (charCodes s) = String.length s.
Proof. induction s as [|a s IH]; [reflexivity|]. cbn [charCodes length String.length]. now rewrite IH. Qed.

(** X1: truncating to 32 bits at every iteration is the same as truncating
    once at the end: the hash of a string is the integer polynomial
    [c0*31^(n-1) + c1*31^(n-2) + ... + c(n-1)] of its code units, reduced to
    a signed 32-bit integer. *)
Theorem hashString_is_truncated_polynomial (s : string) :
  hashString s = Int32.toInt32 (polynomialFrom 0 (charCodes s)).
Proof.
  rewrite <- (toInt32_in_range (hashString s)) by apply hashString_range.
  apply toInt32_of_congruent. apply fold_hashStep_congruent.
Qed.

(** X2: the hash of a concatenation is determined by the hashes of the two
    parts and the length of the second:
    [hash (s1 ++ s2) = (hash s1 * 31^|s2| + hash s2)] reduced to 32 bits. *)
Theorem hashString_append (s1 s2 : string) :
  hashString (s1 +:+ s2) =
  Int32.toInt32 (hashString s1 * 31 ^ Z.of_nat (String.length s2) + hashString s2).
Proof.
  rewrite <- (toInt32_in_range (hashString (s1 +:+ s2))) by apply hashString_range.
  apply toInt32_of_congruent. unfold hashString.
  rewrite charCodes_append, fold_left_app.
  eapply congruent32_trans; [apply fold_hashStep_congruent|].
  rewrite polynomialFrom_affine, length_charCodes.
  destruct (fold_hashStep_congruent (charCodes s2) 0) as [q ->].
  exists (- q). lia.
Qed.

(** ** Identifiers and hashes *)

Lemma hexValue_padStart n a s :
  a = "0"%char -> hexValue (padStart n a s) = hexValue s.
Proof.
  intros ->. unfold padStart, hexValue.
  induction (n - String.length s)%nat as [|k IH]; [reflexivity|].
  cbn [repeatChar]. rewrite append_cons. cbn [hexValueFrom].
  change (0 * 16 + hexDigitValue "0") with 0. exact IH.
Qed.

Lemma hexValue_renderId hash : hexValue (renderId hash) = Z.abs hash.
Proof.
  unfold renderId. rewrite hexValue_padStart by reflexivity.
  apply toString16_value. lia.
Qed.

(** X3: two hashes are rendered as the same identifier exactly when they
    have the same absolute value: the identifier keeps the magnitude of the
    hash and drops its sign, and nothing else. *)
Theorem renderId_same_iff_same_magnitude (h1 h2 : Z) :
  renderId h1 = renderId h2 <-> Z.abs h1 = Z.abs h2.
Proof.
  split.
  - intros H. rewrite <- (hexValue_renderId h1), <- (hexValue_renderId h2). now rewrite H.
  - intros H. unfold renderId. now rewrite H.
Qed.

(** ** The metadata filter *)

(** X4: [filterMetadata] returns a part of its argument that holds only
    allow-listed keys with values other than [undefined] and [null], hence
    at most six entries, and filtering its result again changes nothing. *)
Theorem filterMetadata_sound_and_idempotent (metadata : option Metadata) :
  filterMetadata metadata ⊆ default ∅ metadata /\
  (forall key v, filterMetadata metadata !! key = Some v ->
     key ∈ allowedKeys /\ v <> VUndefined /\ v <> VNull) /\
  (size (filterMetadata metadata) <= 6)%nat /\
  filterMetadata (Some (filterMetadata metadata)) = filterMetadata metadata.
Proof.
  rewrite filterMetadata_default. set (m := default ∅ metadata).
  change (filter stableEntry m) with (filterMetadata (Some m)).
  assert (forall key v, filterMetadata (Some m) !! key = Some v ->
            key ∈ allowedKeys /\ v <> VUndefined /\ v <> VNull) as Hsound.
  { intros key v H. apply lookup_filterMetadata in H. tauto. }
  split; [apply map_filter_subseteq|]. split; [exact Hsound|]. split.
  - change 6%nat with (size allowedKeys). rewrite <- size_dom.
    apply subseteq_size. intros key Hk. apply elem_of_dom in Hk as [v Hv].
    now apply Hsound in Hv.
  - apply map_eq. intros key. apply option_eq. intros v.
    rewrite lookup_filterMetadata. split; [tauto|].
    intros H. split; [exact H|]. now apply Hsound.
Qed.

(** ** Invariants of the record *)

Lemma orString_nonempty a b : b <> "" -> orString a b <> "".
Proof.
  intros Hb. unfold orString. destruct a as [s|]; [|exact Hb].
  destruct (String.eqb_spec s ""); congruence.
Qed.

Lemma orString_again a b : b <> "" -> orString (Some (orString a b)) b = orString a b.
Proof.
  intros Hb. cbn [orString].
  destruct (String.eqb_spec (orString a b) "") as [H|H]; [|reflexivity].
  now apply orString_nonempty in H.
Qed.

Lemma orNumber_again a b : b <> 0 -> orNumber (Some (orNumber a b)) b = orNumber a b.
Proof.
  intros Hb. unfold orNumber. destruct a as [n|].
  - destruct (Z.eqb_spec n 0) as [->|Hn].
    + destruct (Z.eqb_spec b 0); congruence.
    + destruct (Z.eqb_spec n 0); congruence.
  - destruct (Z.eqb_spec b 0); congruence.
Qed.

(** X5: every record has a non-empty category and a status code other
    than 0, whatever the options are; and wrapping a record again, with
    options that repeat its own category, metadata, severity and status
    code, gives a record with the same identifier, message, category,
    severity and status code. *)
Theorem createStableError_rewrap
    (host host' : Host.t) (src : messageOrError) (options : Options.t) :
  let r := createStableError host src options in
  let r' := createStableError host' (OfError (asError r)) (optionsOf r) in
  StableError.category r <> "" /\
  StableError.statusCode r <> 0 /\
  StableError.id r' = StableError.id r /\
  StableError.message r' = StableError.message r /\
  StableError.category r' = StableError.category r /\
  StableError.severity r' = StableError.severity r /\
  StableError.statusCode r' = StableError.statusCode r.
Proof.
  cbv zeta.
  assert (StableError.category (createStableError host src options) =
          orString (Options.category options) "general") as Hcat
    by (destruct src; reflexivity).
  assert (StableError.statusCode (createStableError host src options) =
          orNumber (Options.statusCode options) 500) as Hsc
    by (destruct src; reflexivity).
  assert (StableError.message (createStableError host src options) = sourceMessage src)
    as Hmsg by (destruct src; reflexivity).
  split; [rewrite Hcat; now apply orString_nonempty|].
  split.
  { rewrite Hsc. unfold orNumber. destruct (Options.statusCode options) as [n|]; [|lia].
    destruct (Z.eqb_spec n 0); lia. }
  split.
  { rewrite (createStableError_id host' _ (optionsOf _)).
    cbn [optionsOf Options.category Options.metadata sourceMessage asError JsError.message].
    rewrite Hcat, Hmsg, orString_again by discriminate.
    rewrite createStableError_id. apply generateStableId_agree.
    intros key Hk. destruct src as [s|e]; simpl; [reflexivity|].
    destruct (original_keys_not_allowed key Hk) as [Hn Hs].
    rewrite !lookup_insert_ne by congruence. reflexivity. }
  split; [reflexivity|].
  split; [cbn; rewrite Hcat; now apply orString_again|].
  split; [reflexivity|].
  cbn. rewrite Hsc. now apply orNumber_again.
Qed.

(** ** What the identifier does not distinguish *)

Lemma stableString_spec_form message category metadata :
  stableString message category metadata = specStableString message category metadata.
Proof.
  unfold stableString, specStableString. cbv zeta.
  rewrite sortedKeysOf_filterMetadata, filterMetadata_default.
  set (m := default ∅ metadata).
  change (filter stableEntry m) with (filterMetadata (Some m)).
  destruct (specKeys m) as [|k keys] eqn:Hkeys.
  - simpl. rewrite !append_assoc, append_empty_r. reflexivity.
  - change (0 <? length (k :: keys))%nat with true. cbv iota.
    assert (map (fun key => key +:+ ":" +:+
                   trim (toLowerCase (toString (getProp (filterMetadata (Some m)) key))))
                (k :: keys) = map (specEntry m) (k :: keys)) as ->.
    { apply map_ext_in. intros key Hin. unfold specEntry.
      rewrite getProp_filterMetadata; [reflexivity|].
      rewrite Hkeys. now apply list_elem_of_In. }
    cbn [app String.concat]. rewrite !append_assoc. reflexivity.
Qed.

Lemma survives_canonEntry (m : Metadata) key :
  survives m key <-> is_Some (canonEntry m key).
Proof.
  unfold survives, canonEntry. destruct (m !! key) as [v|].
  - split.
    + intros (v' & [= <-] & Hu & Hn). destruct v; try congruence; eauto.
    + intros [x Hx]. exists v. destruct v; try discriminate Hx; repeat split; congruence.
  - split; [intros (v' & H & _); discriminate H | intros [x Hx]; discriminate Hx].
Qed.

Lemma specEntry_canonEntry (m : Metadata) key x :
  canonEntry m key = Some x -> specEntry m key = key +:+ ":" +:+ x.
Proof.
  unfold canonEntry, specEntry, getProp, canonText.
  destruct (m !! key) as [v|]; [|discriminate].
  destruct v; try discriminate; now intros [= <-].
Qed.

Lemma filter_ext_in {A} (P Q : A -> Prop) `{forall x, Decision (P x)}
    `{forall x, Decision (Q x)} (l : list A) :
  (forall x, x ∈ l -> (P x <-> Q x)) -> filter P l = filter Q l.
Proof.
  induction l as [|x l IH]; intros Hl; [reflexivity|].
  rewrite !filter_cons.
  assert (filter P l = filter Q l) as -> by (apply IH; intros y Hy; apply Hl; now right).
  destruct (decide (P x)) as [Hp|Hp], (decide (Q x)) as [Hq|Hq]; try reflexivity;
    exfalso; apply (Hl x (list_elem_of_here x l)) in Hp || apply (Hl x (list_elem_of_here x l)) in Hq;
    contradiction.
Qed.

(** X6: the identifier only sees the lowercased and trimmed forms of the
    message, of the category (an absent category counting as empty) and of
    the string forms of the allow-listed metadata values: inputs that agree
    on these forms get the same identifier, for instance inputs that differ
    in letter case, in surrounding white space, or in a number given as the
    text of its digits. *)
Theorem generateStableId_canonical_forms
    (message1 message2 : string) (category1 category2 : option string)
    (metadata1 metadata2 : option Metadata) :
  canonText message1 = canonText message2 ->
  canonText (default "" category1) = canonText (default "" category2) ->
  (forall key, key ∈ allowedKeys ->
     canonEntry (default ∅ metadata1) key = canonEntry (default ∅ metadata2) key) ->
  generateStableId message1 category1 metadata1 =
  generateStableId message2 category2 metadata2.
Proof.
  intros Hm Hc Hmd. unfold generateStableId. f_equal. f_equal.
  rewrite !stableString_spec_form. unfold specStableString. cbv zeta.
  rewrite !normalizeMessage_prepared. fold (canonText message1) (canonText message2).
  fold (canonText (default "" category1)) (canonText (default "" category2)).
  rewrite Hm, Hc. do 3 f_equal.
  set (m1 := default ∅ metadata1) in *. set (m2 := default ∅ metadata2) in *.
  assert (specKeys m1 = specKeys m2) as Hkeys.
  { unfold specKeys. apply filter_ext_in. intros key Hk.
    apply allowedKeys_sorted in Hk. rewrite !survives_canonEntry.
    now rewrite (Hmd key Hk). }
  assert (map (specEntry m1) (specKeys m1) = map (specEntry m2) (specKeys m1)) as Hmap.
  { apply map_ext_in. intros key Hin. apply list_elem_of_In in Hin.
    apply specKeys_spec in Hin as [Hk Hs].
    apply survives_canonEntry in Hs as [x Hx].
    rewrite (specEntry_canonEntry m1 key x Hx).
    rewrite (Hmd key Hk) in Hx. now rewrite (specEntry_canonEntry m2 key x Hx). }
  rewrite <- Hkeys. destruct (specKeys m1) as [|k keys]; [reflexivity|].
  now rewrite Hmap.
Qed.

Lemma generateStableId_canonical_forms_witness :
  generateStableId Forms.message1 Forms.category1 (Some Forms.metadata1) =
  generateStableId Forms.message2 Forms.category2 (Some Forms.metadata2).
Proof.
  apply (generateStableId_canonical_forms
           Forms.message1 Forms.message2 Forms.category1 Forms.category2
           (Some Forms.metadata1) (Some Forms.metadata2)).
  - reflexivity.
  - reflexivity.
  - intros key Hk. apply allowedKeys_sorted in Hk. unfold sortedAllowedKeys in Hk.
    rewrite !elem_of_cons, elem_of_nil in Hk.
    destruct Hk as [->|[->|[->|[->|[->|[->|[]]]]]]]; vm_compute; reflexivity.
Defined.

(** ** The white-space rule *)

Lemma many_space prev s :
  many space (fun _ rest => Some rest) prev s = Some (trimStart s).
Proof.
  revert prev. induction s as [|a s IH]; intros prev; [reflexivity|].
  cbn [many trimStart]. unfold space at 1.
  destruct (isWhiteSpace a); [now rewrite IH | reflexivity].
Qed.

Lemma matchAt_spaces prev a s :
  matchAt spacesRe prev (String a s) =
  if isWhiteSpace a then Some (trimStart s) else None.
Proof.
  unfold matchAt, spacesRe. cbn [rmatch]. unfold space at 1.
  destruct (isWhiteSpace a); [apply many_space | reflexivity].
Qed.

Lemma trimStart_split s :
  exists run, s = run +:+ trimStart s /\ allChars isWhiteSpace run = true.
Proof.
  induction s as [|a s IH]; [now exists ""|]. cbn [trimStart].
  destruct (isWhiteSpace a) eqn:Ha.
  - destruct IH as (run & Hs & Hrun). exists (String a run). split.
    + rewrite append_cons. now rewrite <- Hs.
    + cbn [allChars]. now rewrite Ha, Hrun.
  - now exists "".
Qed.

Lemma first_trimStart s : isSpaceAt (first (trimStart s)) = false.
Proof.
  induction s as [|a s IH]; [reflexivity|]. cbn [trimStart].
  destruct (isWhiteSpace a) eqn:Ha; [exact IH | exact Ha].
Qed.

Lemma collapseFrom_run run rest :
  allChars isWhiteSpace run = true ->
  collapseFrom true (run +:+ rest) = collapseFrom true rest.
Proof.
  induction run as [|a run IH]; [reflexivity|]. cbn [allChars].
  intros H. apply andb_prop in H as [Ha Hrun].
  rewrite append_cons. cbn [collapseFrom]. rewrite Ha. now apply IH.
Qed.

Lemma collapseFrom_flag b s :
  isSpaceAt (first s) = false -> collapseFrom b s = collapseFrom false s.
Proof.
  destruct s as [|a s]; [reflexivity|]. cbn [first isSpaceAt collapseFrom].
  now intros ->.
Qed.

Lemma length_trimStart s : (String.length (trimStart s) <= String.length s)%nat.
Proof.
  induction s as [|a s IH]; [reflexivity|]. cbn [trimStart].
  destruct (isWhiteSpace a); simpl; lia.
Qed.

Lemma replaceFrom_spaces_collapse n : forall s prev,
  (String.length s <= n)%nat ->
  replaceFrom spacesRe " " 0 prev s = collapseFrom false s.
Proof.
  induction n as [|n IH]; intros s prev Hlen.
  - destruct s; [reflexivity | simpl in Hlen; lia].
  - destruct s as [|a s]; [reflexivity|].
    cbn [replaceFrom collapseFrom]. rewrite matchAt_spaces.
    destruct (isWhiteSpace a) eqn:Ha.
    + destruct (trimStart_split s) as (run & Hs & Hrun).
      pose proof (length_trimStart s) as Hle.
      replace (String.length (String a s) - String.length (trimStart s))%nat
        with (S (String.length run)).
      * rewrite Hs at 1. rewrite replaceFrom_skip.
        rewrite IH by (simpl in Hlen; lia).
        rewrite Hs at 2. rewrite collapseFrom_run by exact Hrun.
        rewrite (collapseFrom_flag true) by apply first_trimStart.
        reflexivity.
      * cbn [String.length].
        assert (String.length s = String.length run + String.length (trimStart s))%nat
          as Hl by (rewrite Hs at 1; apply length_append).
        lia.
    + rewrite IH by (simpl in Hlen; lia). reflexivity.
Qed.

Lemma singleSpacedFrom_collapse s : forall b,
  singleSpacedFrom b (collapseFrom b s) = true.
Proof.
  induction s as [|a s IH]; intros b; [reflexivity|]. cbn [collapseFrom].
  destruct (isWhiteSpace a) eqn:Ha.
  - destruct b; [apply IH|]. cbn [singleSpacedFrom].
    change (isWhiteSpace " ") with true. cbv iota. rewrite IH. reflexivity.
  - cbn [singleSpacedFrom]. rewrite Ha. apply IH.
Qed.

(** X7: the rule [/\s+/g -> ' '] turns every maximal run of white space
    into one space and copies every other character; its result has no
    white space other than single spaces, and applying it again changes
    nothing. *)
Theorem spaces_rule_collapses (s : string) :
  replaceAll spacesRe " " s = collapseSpaces s /\
  singleSpaced (replaceAll spacesRe " " s) = true /\
  replaceAll spacesRe " " (replaceAll spacesRe " " s) = replaceAll spacesRe " " s.
Proof.
  assert (forall t, replaceAll spacesRe " " t = collapseSpaces t) as Hc
    by (intros t; apply (replaceFrom_spaces_collapse (String.length t)); lia).
  split; [apply Hc|]. split.
  - rewrite Hc. apply singleSpacedFrom_collapse.
  - rewrite !Hc. unfold collapseSpaces.
    assert (forall t b, collapseFrom b (collapseFrom b t) = collapseFrom b t) as Hidem.
    { induction t as [|a t IH]; intros b; [reflexivity|]. cbn [collapseFrom].
      destruct (isWhiteSpace a) eqn:Ha.
      - destruct b; [apply IH|]. cbn [collapseFrom].
        change (isWhiteSpace " ") with true. cbv iota. now rewrite IH.
      - cbn [collapseFrom]. rewrite Ha. now rewrite IH. }
    apply Hidem.
Qed.

(** ** The ends of the normalised message *)

Lemma replaceAll_first_nonspace re repl s :
  isSpaceAt (first repl) = false -> repl <> "" ->
  isSpaceAt (first s) = false ->
  isSpaceAt (first (replaceAll re repl s)) = false.
Proof.
  intros Hr Hne Hs. unfold replaceAll.
  assert (forall X, isSpaceAt (first (repl +:+ X)) = false) as Hrepl
    by (intros X; destruct repl; [congruence | exact Hr]).
  destruct s as [|a s]; cbn [replaceFrom].
  - destruct (matchAt re None ""); [exact Hr | reflexivity].
  - destruct (matchAt re None (String a s)) as [rest|]; [|exact Hs].
    destruct (String.length (String a s) - String.length rest)%nat; apply Hrepl.
Qed.

Lemma replaceFrom_last_nonspace re repl :
  isSpaceAt (lastOr None repl) = false -> repl <> "" ->
  forall s n prev p,
    isSpaceAt (lastOr None s) = false ->
    isSpaceAt p = false \/ (n = 0%nat /\ s <> "") ->
    isSpaceAt (lastOr p (replaceFrom re repl n prev s)) = false.
Proof.
  intros Hr Hne.
  assert (forall p X, lastOr p (repl +:+ X) = lastOr (lastOr None repl) X) as Hrepl.
  { intros p X. rewrite lastOr_append. now rewrite (lastOr_nonempty p None repl Hne). }
  induction s as [|a s IH]; intros n prev p Hs Hp.
  - assert (isSpaceAt p = false) as Hp' by (destruct Hp as [H|[_ H]]; [exact H | congruence]).
    cbn [replaceFrom]. destruct n; [|exact Hp'].
    destruct (matchAt re prev ""); [|exact Hp'].
    rewrite <- (append_empty_r repl), Hrepl. exact Hr.
  - assert (isSpaceAt (lastOr None s) = false) as Hs'.
    { destruct s as [|b s]; [reflexivity|]. exact Hs. }
    assert (isSpaceAt (Some a) = false \/ (0 = 0 /\ s <> ""))%nat as Hcopy.
    { destruct s as [|b s]; [left; exact Hs | right; split; [reflexivity | discriminate]]. }
    cbn [replaceFrom]. destruct n as [|n].
    + destruct (matchAt re prev (String a s)) as [rest|].
      * destruct (String.length (String a s) - String.length rest)%nat as [|m].
        -- rewrite Hrepl. cbn [lastOr]. now apply IH.
        -- rewrite Hrepl. apply IH; [exact Hs' | now left].
      * cbn [lastOr]. now apply IH.
    + apply IH; [exact Hs'|]. destruct Hp as [H|[H _]]; [now left | discriminate H].
Qed.

Lemma replaceAll_last_nonspace re repl s :
  isSpaceAt (lastOr None repl) = false -> repl <> "" ->
  isSpaceAt (lastOr None s) = false ->
  isSpaceAt (lastOr None (replaceAll re repl s)) = false.
Proof.
  intros Hr Hne Hs. unfold replaceAll.
  apply replaceFrom_last_nonspace; [exact Hr | exact Hne | exact Hs | now left].
Qed.

Lemma collapse_first_nonspace s :
  isSpaceAt (first s) = false -> isSpaceAt (first (collapseFrom false s)) = false.
Proof.
  destruct s as [|a s]; [reflexivity|]. cbn [first isSpaceAt collapseFrom].
  intros Ha. now rewrite Ha.
Qed.

Lemma collapse_last_nonspace s : forall b p,
  isSpaceAt (lastOr None s) = false ->
  isSpaceAt p = false \/ s <> "" ->
  isSpaceAt (lastOr p (collapseFrom b s)) = false.
Proof.
  induction s as [|a s IH]; intros b p Hs Hp.
  - destruct Hp as [H|H]; [exact H | congruence].
  - assert (isSpaceAt (lastOr None s) = false) as Hs'.
    { destruct s as [|c s]; [reflexivity|]. exact Hs. }
    cbn [collapseFrom]. destruct (isWhiteSpace a) eqn:Ha.
    + assert (s <> "") as Hne.
      { intros ->. cbn [lastOr isSpaceAt] in Hs. congruence. }
      destruct b; [apply IH; [exact Hs' | now right]|].
      cbn [lastOr]. apply IH; [exact Hs' | now right].
    + cbn [lastOr]. apply IH; [exact Hs' | left; exact Ha].
Qed.

Lemma lastOr_trimEnd s : isSpaceAt (lastOr None (trimEnd s)) = false.
Proof.
  induction s as [|a s IH]; [reflexivity|]. cbn [trimEnd].
  destruct (trimEnd s) as [|b t] eqn:Ht.
  - destruct (isWhiteSpace a) eqn:Ha; [reflexivity | exact Ha].
  - exact IH.
Qed.

Lemma trim_ends s :
  isSpaceAt (first (trim s)) = false /\ isSpaceAt (lastOr None (trim s)) = false.
Proof.
  unfold trim. split; [|apply lastOr_trimEnd].
  destruct (first_trimEnd (trimStart s)) as [-> | ->]; [reflexivity|].
  apply first_trimStart.
Qed.

Lemma trimEnd_of_trimmed s : isSpaceAt (lastOr None s) = false -> trimEnd s = s.
Proof.
  induction s as [|a s IH]; [reflexivity|]. intros Hs. cbn [trimEnd].
  destruct s as [|b s].
  - cbn [lastOr isSpaceAt] in Hs. cbn [trimEnd]. now rewrite Hs.
  - rewrite IH by exact Hs. reflexivity.
Qed.

Lemma trim_of_trimmed s :
  isSpaceAt (first s) = false -> isSpaceAt (lastOr None s) = false -> trim s = s.
Proof.
  intros Hf Hl. unfold trim.
  assert (trimStart s = s) as ->.
  { destruct s as [|a s]; [reflexivity|]. cbn [first isSpaceAt] in Hf.
    cbn [trimStart]. now rewrite Hf. }
  now apply trimEnd_of_trimmed.
Qed.

(** X8: whatever the message, its normal form has no white space at its
    ends (trimming it again changes nothing), has no white space other than
    the space character, and has no two adjacent spaces. *)
Theorem normalizeMessage_trimmed_single_spaced (message : string) :
  trim (normalizeMessage message) = normalizeMessage message /\
  singleSpaced (normalizeMessage message) = true.
Proof.
  rewrite normalizeMessage_rules.
  destruct (trim_ends (toLowerCase message)) as [Hf Hl].
  set (s0 := trim (toLowerCase message)) in *.
  pose proof (replaceAll_first_nonspace uuidRe "UUID" s0 eq_refl ltac:(discriminate) Hf) as Hf2.
  pose proof (replaceAll_last_nonspace uuidRe "UUID" s0 eq_refl ltac:(discriminate) Hl) as Hl2.
  set (s2 := replaceAll uuidRe "UUID" s0) in *.
  pose proof (replaceAll_first_nonspace timestampRe "TIMESTAMP" s2 eq_refl ltac:(discriminate) Hf2) as Hf3.
  pose proof (replaceAll_last_nonspace timestampRe "TIMESTAMP" s2 eq_refl ltac:(discriminate) Hl2) as Hl3.
  set (s3 := replaceAll timestampRe "TIMESTAMP" s2) in *.
  pose proof (replaceAll_first_nonspace timestampMsRe "TIMESTAMP_MS" s3 eq_refl ltac:(discriminate) Hf3) as Hf4.
  pose proof (replaceAll_last_nonspace timestampMsRe "TIMESTAMP_MS" s3 eq_refl ltac:(discriminate) Hl3) as Hl4.
  set (s4 := replaceAll timestampMsRe "TIMESTAMP_MS" s3) in *.
  pose proof (replaceAll_first_nonspace numberRe "NUMBER" s4 eq_refl ltac:(discriminate) Hf4) as Hf5.
  pose proof (replaceAll_last_nonspace numberRe "NUMBER" s4 eq_refl ltac:(discriminate) Hl4) as Hl5.
  set (s5 := replaceAll numberRe "NUMBER" s4) in *.
  assert (replaceAll spacesRe " " s5 = collapseFrom false s5) as ->
    by (apply (replaceFrom_spaces_collapse (String.length s5)); lia).
  split.
  - apply trim_of_trimmed.
    + now apply collapse_first_nonspace.
    + apply collapse_last_nonspace; [exact Hl5 | now left].
  - apply singleSpacedFrom_collapse.
Qed.

(** ** Matches and their place in the input *)

Lemma many_suffix cls k prev s x :
  many cls k prev s = Some x ->
  exists prev' m s', s = m +:+ s' /\ k prev' s' = Some x.
Proof.
  revert prev. induction s as [|a s IH]; intros prev; cbn [many].
  - intros H. now exists prev, "", "".
  - destruct (cls a); [|intros H; now exists prev, "", (String a s)].
    destruct (many cls k (Some a) s) as [r|] eqn:Hm.
    + intros [= <-]. destruct (IH _ Hm) as (p' & m & s' & -> & Hk).
      exists p', (String a m), s'. split; [now rewrite append_cons | exact Hk].
    + intros H. now exists prev, "", (String a s).
Qed.

(** A successful match calls its continuation on a suffix of the input. *)
Lemma rmatch_suffix r : forall k prev s x,
  rmatch r k prev s = Some x ->
  exists prev' m s', s = m +:+ s' /\ k prev' s' = Some x.
Proof.
  induction r as [|cls| |r1 IH1 r2 IH2|r1 IH1|n r1 IH1|cls]; intros k prev s x; cbn [rmatch].
  - intros H. now exists prev, "", s.
  - destruct s as [|a s]; [discriminate|]. destruct (cls a); [|discriminate].
    intros H. now exists (Some a), (String a ""), s.
  - destruct (xorb _ _); [|discriminate]. intros H. now exists prev, "", s.
  - intros H. destruct (IH1 _ _ _ _ H) as (p1 & m1 & s1 & -> & H1).
    destruct (IH2 _ _ _ _ H1) as (p2 & m2 & s2 & -> & H2).
    exists p2, (m1 +:+ m2), s2. split; [now rewrite append_assoc | exact H2].
  - destruct (rmatch r1 k prev s) as [r|] eqn:Hm.
    + intros [= <-]. exact (IH1 _ _ _ _ Hm).
    + intros H. now exists prev, "", s.
  - revert prev s. induction n as [|n IHn]; intros prev s; cbn [Nat.iter nat_rect].
    + intros H. now exists prev, "", s.
    + intros H. destruct (IH1 _ _ _ _ H) as (p1 & m1 & s1 & -> & H1).
      destruct (IHn _ _ H1) as (p2 & m2 & s2 & -> & H2).
      exists p2, (m1 +:+ m2), s2. split; [now rewrite append_assoc | exact H2].
  - destruct s as [|a s]; [discriminate|]. destruct (cls a); [|discriminate].
    intros H. destruct (many_suffix _ _ _ _ _ H) as (p' & m & s' & -> & Hk).
    exists p', (String a m), s'. split; [now rewrite append_cons | exact Hk].
Qed.

Lemma noHyphen_suffix m s : noHyphen (m +:+ s) = true -> noHyphen s = true.
Proof.
  unfold noHyphen. rewrite allChars_append. intros H. now apply andb_prop in H as [_ H].
Qed.

(** The patterns for UUIDs and for timestamps need a hyphen. *)
Lemma matchAt_needs_hyphen prev s :
  noHyphen s = true ->
  matchAt uuidRe prev s = None /\ matchAt timestampRe prev s = None.
Proof.
  intros Hs. split.
  - destruct (matchAt uuidRe prev s) as [x|] eqn:Hm; [exfalso | reflexivity].
    unfold matchAt, uuidRe, rseq in Hm. cbn [fold_right] in Hm. cbn [rmatch] in Hm.
    apply (rmatch_suffix (RRepeat 8 (RChar hex_i))) in Hm
      as (p' & m & s' & -> & Hk).
    apply noHyphen_suffix in Hs. destruct s' as [|a s']; [discriminate Hk|].
    unfold noHyphen in Hs. cbn [allChars] in Hs. apply andb_prop in Hs as [Ha _].
    apply negb_true_iff in Ha. cbn [rmatch] in Hk. rewrite Ha in Hk. discriminate Hk.
  - destruct (matchAt timestampRe prev s) as [x|] eqn:Hm; [exfalso | reflexivity].
    unfold matchAt, timestampRe, rseq in Hm. cbn [fold_right] in Hm. cbn [rmatch] in Hm.
    apply (rmatch_suffix (RRepeat 4 (RChar digit))) in Hm
      as (p' & m & s' & -> & Hk).
    apply noHyphen_suffix in Hs. destruct s' as [|a s']; [discriminate Hk|].
    unfold noHyphen in Hs. cbn [allChars] in Hs. apply andb_prop in Hs as [Ha _].
    apply negb_true_iff in Ha. cbn [rmatch] in Hk. rewrite Ha in Hk. discriminate Hk.
Qed.

(** A text none of whose suffixes matches is inert in front of a
    delimiter. *)
Lemma inert_of_nomatch re (P : string -> Prop) B m :
  (forall a s, P (String a s) -> P s) ->
  (forall prev s, P s -> matchAt re prev s = None) ->
  delimitedBy re (first B) = true -> P m -> inert re B m.
Proof.
  intros Hsuf Hno HB. induction m as [|a m IH]; intros Hm; [exact I|]. split.
  - intros prev. destruct B as [|c B].
    + rewrite append_empty_r. now apply Hno.
    + cbn [first delimitedBy] in HB. rewrite <- append_cons.
      destruct (matchAt_delimited c B re prev (String a m) HB) as [[H _]|(q & _ & _ & H)].
      * exact H.
      * rewrite Hno in H by exact Hm. discriminate H.
  - apply IH. now apply (Hsuf a).
Qed.

Lemma replaceFrom_inertAfter re repl B m : forall prev,
  inertAfter re B prev m ->
  replaceFrom re repl 0 prev (m +:+ B) =
  m +:+ replaceFrom re repl 0 (lastOr prev m) B.
Proof.
  induction m as [|a m IH]; intros prev Hm; [reflexivity|].
  destruct Hm as [Ha Hm]. rewrite !append_cons. cbn [replaceFrom lastOr].
  now rewrite Ha, IH.
Qed.

Lemma replaceAll_around_after re repl A m B :
  (1 <= minLen re)%nat ->
  delimitedBy re (lastOr None A) = true -> delimitedBy re (first B) = true ->
  inertAfter re B (lastOr None A) m ->
  replaceAll re repl (A +:+ m +:+ B) =
  replaceAll re repl A +:+ m +:+ replaceAll re repl B.
Proof.
  intros Hmin HA HB Hm.
  assert (replaceFrom re repl 0 (lastOr None A) (m +:+ B) =
          m +:+ replaceAll re repl B) as Hmid.
  { rewrite replaceFrom_inertAfter by exact Hm.
    now rewrite replaceFrom_after_delimited. }
  unfold replaceAll at 1 2. destruct (decide (A = "")) as [->|Hne].
  - cbn [lastOr] in Hmid. now rewrite append_nil_l, replaceFrom_empty, Hmid.
  - destruct (lastOr_decompose A Hne) as (p & c & -> & Hlast).
    rewrite delimitedBy_lastOr_snoc in HA. rewrite Hlast in Hmid.
    rewrite replaceFrom_snoc_delimiter by assumption.
    rewrite !append_assoc.
    change (String c "" +:+ m +:+ B) with (String c (m +:+ B)).
    rewrite replaceFrom_delimited by (assumption || lia).
    now rewrite Hmid.
Qed.

(** A match between two delimiters is replaced, and the texts before and
    after it are treated on their own. *)
Lemma replaceAll_match_between re repl A a m B :
  (1 <= minLen re)%nat ->
  delimitedBy re (lastOr None A) = true -> delimitedBy re (first B) = true ->
  matchAt re (lastOr None A) (String a m +:+ B) = Some B ->
  replaceAll re repl (A +:+ String a m +:+ B) =
  replaceAll re repl A +:+ repl +:+ replaceAll re repl B.
Proof.
  intros Hmin HA HB Hm.
  assert (replaceFrom re repl 0 (lastOr None A) (String a m +:+ B) =
          repl +:+ replaceAll re repl B) as Hmid.
  { rewrite (replaceFrom_match _ _ _ _ _ _ Hm).
    now rewrite replaceFrom_after_delimited. }
  unfold replaceAll at 1 2. destruct (decide (A = "")) as [->|Hne].
  - cbn [lastOr] in Hmid. now rewrite append_nil_l, replaceFrom_empty, Hmid.
  - destruct (lastOr_decompose A Hne) as (p & c & -> & Hlast).
    rewrite delimitedBy_lastOr_snoc in HA. rewrite Hlast in Hmid.
    rewrite replaceFrom_snoc_delimiter by assumption.
    rewrite !append_assoc.
    change (String c "" +:+ String a m +:+ B) with (String c (String a m +:+ B)).
    rewrite replaceFrom_delimited by (assumption || lia).
    now rewrite Hmid.
Qed.

(** ** The rule for numbers *)

(** A greedy run of digits followed by something else takes all of them. *)
Lemma many_digits (k : cont) d B x : forall prev,
  allChars digit d = true -> isWordAt (first B) = false ->
  k (lastOr prev d) B = Some x ->
  many digit k prev (d +:+ B) = Some x.
Proof.
  induction d as [|a d IH]; intros prev Hd HB Hk.
  - rewrite append_nil_l. cbn [lastOr] in Hk. destruct B as [|c B]; [exact Hk|].
    cbn [first isWordAt] in HB. cbn [many]. now rewrite (nonword_nondigit c HB).
  - cbn [allChars] in Hd. apply andb_prop in Hd as [Ha Hd].
    rewrite append_cons. cbn [many]. rewrite Ha.
    now rewrite (IH (Some a) Hd HB Hk).
Qed.

(** A run of digits between two word boundaries matches the number
    pattern as a whole. *)
Lemma matchAt_number prev a d B :
  allChars digit (String a d) = true ->
  isWordAt prev = false -> isWordAt (first B) = false ->
  matchAt numberRe prev (String a d +:+ B) = Some B.
Proof.
  intros Hd Hprev HB. pose proof Hd as Hall.
  cbn [allChars] in Hd. apply andb_prop in Hd as [Ha Hd].
  unfold matchAt, numberRe, rseq. rewrite append_cons.
  cbn [fold_right rmatch first isWordAt].
  rewrite Hprev, (digit_wordChar _ Ha), Ha. cbn [xorb].
  apply many_digits; [exact Hd | exact HB |].
  assert (isWordAt (lastOr (Some a) d) = true) as Hlast.
  { destruct (decide (d = "")) as [->|Hne]; [exact (digit_wordChar _ Ha)|].
    destruct (lastOr_some d Hne) as [z Hz].
    rewrite (lastOr_nonempty (Some a) None d Hne), Hz.
    apply digit_wordChar. exact (allChars_last _ d z None Hd Hne Hz). }
  now rewrite Hlast, HB.
Qed.

(** No match of the 13-digit pattern starts between two word characters. *)
Lemma matchAt_timestampMs_inside p a s :
  wordChar p = true -> wordChar a = true ->
  matchAt timestampMsRe (Some p) (String a s) = None.
Proof.
  intros Hp Ha. unfold matchAt, timestampMsRe, rseq.
  cbn [fold_right rmatch first isWordAt]. now rewrite Hp, Ha.
Qed.

Lemma inertAfter_timestampMs_inside B d : forall p,
  wordChar p = true -> allChars digit d = true ->
  inertAfter timestampMsRe B (Some p) d.
Proof.
  induction d as [|a d IH]; intros p Hp Hd; [exact I|].
  cbn [allChars] in Hd. apply andb_prop in Hd as [Ha Hd]. split.
  - apply matchAt_timestampMs_inside; [exact Hp | now apply digit_wordChar].
  - apply IH; [now apply digit_wordChar | exact Hd].
Qed.

(** Fourteen digits or more do not match the 13-digit pattern. *)
Lemma matchAt_timestampMs_long prev d :
  (14 <= String.length d)%nat -> allChars digit d = true ->
  matchAt timestampMsRe prev d = None.
Proof.
  intros Hlen Hall.
  do 14 (destruct d as [|? d]; [simpl in Hlen; lia|]).
  cbn [allChars] in Hall.
  repeat match type of Hall with
         | (_ && _) = true => let H := fresh "Hd" in apply andb_prop in Hall as [H Hall]
         end.
  unfold matchAt, timestampMsRe, rseq.
  cbn [fold_right rmatch Nat.iter nat_rect first isWordAt].
  rewrite Hd, Hd0, Hd1, Hd2, Hd3, Hd4, Hd5, Hd6, Hd7, Hd8, Hd9, Hd10, Hd11.
  rewrite (digit_wordChar _ Hd11), (digit_wordChar _ Hd12).
  now destruct (xorb _ _).
Qed.

(** A run of digits that does not have thirteen of them is left alone by
    the 13-digit rule. *)
Lemma inertAfter_timestampMs prev d B :
  String.length d <> 13%nat -> allChars digit d = true ->
  delimitedBy timestampMsRe (first B) = true ->
  inertAfter timestampMsRe B prev d.
Proof.
  intros Hlen Hall HB. destruct d as [|a d]; [exact I|].
  pose proof Hall as Hd. cbn [allChars] in Hd. apply andb_prop in Hd as [Ha Hd].
  split; [|apply inertAfter_timestampMs_inside; [now apply digit_wordChar | exact Hd]].
  assert (matchAt timestampMsRe prev (String a d) = None) as Hno.
  { destruct (Nat.lt_ge_cases (String.length (String a d)) 13) as [Hs|Hl].
    - apply matchAt_short. exact Hs.
    - apply matchAt_timestampMs_long; [lia | exact Hall]. }
  destruct B as [|c B].
  - now rewrite append_empty_r.
  - cbn [first delimitedBy] in HB. rewrite <- append_cons.
    destruct (matchAt_delimited c B timestampMsRe prev (String a d) HB)
      as [[H _]|(q & _ & _ & H)]; [exact H|].
    rewrite Hno in H. discriminate H.
Qed.

Lemma digits_noHyphen d : allChars digit d = true -> noHyphen d = true.
Proof.
  apply allChars_impl. intros a.
  destruct a as [[] [] [] [] [] [] [] []]; vm_compute; congruence.
Qed.

Lemma noHyphen_tail a s : noHyphen (String a s) = true -> noHyphen s = true.
Proof. unfold noHyphen. cbn [allChars]. intros H. now apply andb_prop in H as [_ H]. Qed.

(** A text without a hyphen is left alone by the rules for UUIDs and for
    timestamps. *)
Lemma inert_noHyphen B m :
  noHyphen m = true ->
  (delimitedBy uuidRe (first B) = true -> inert uuidRe B m) /\
  (delimitedBy timestampRe (first B) = true -> inert timestampRe B m).
Proof.
  intros Hm. split; intros HB.
  - apply (inert_of_nomatch uuidRe (fun s => noHyphen s = true));
      [exact noHyphen_tail | | exact HB | exact Hm].
    intros prev s Hs. now apply matchAt_needs_hyphen.
  - apply (inert_of_nomatch timestampRe (fun s => noHyphen s = true));
      [exact noHyphen_tail | | exact HB | exact Hm].
    intros prev s Hs. now apply matchAt_needs_hyphen.
Qed.

(** The rules of the normaliser around a run of digits that is no 13-digit
    integer and stands between separators. *)
Lemma rules_around_number A d B :
  d <> "" -> String.length d <> 13%nat -> allChars digit d = true ->
  separatedBy (lastOr None A) = true -> separatedBy (first B) = true ->
  normalizeRules (A +:+ d +:+ B) =
  normalizeRules A +:+ "NUMBER" +:+ normalizeRules B.
Proof.
  intros Hne Hlen Hall HA HB. unfold normalizeRules.
  pose proof (digits_noHyphen d Hall) as Hnh.
  rewrite (replaceAll_around uuidRe "UUID" A d B);
    [| simpl; lia | now apply separated_delimited | now apply separated_delimited
     | apply inert_noHyphen; [exact Hnh | now apply separated_delimited] ].
  assert (separatedBy (lastOr None (replaceAll uuidRe "UUID" A)) = true /\
          separatedBy (first (replaceAll uuidRe "UUID" B)) = true) as [HA2 HB2]
    by (apply separated_after_rule;
        [intros o Ho; now apply separated_delimited | simpl; lia
        | exact HA | exact HB]).
  rewrite (replaceAll_around timestampRe "TIMESTAMP");
    [| simpl; lia | now apply separated_delimited | now apply separated_delimited
     | apply inert_noHyphen; [exact Hnh | now apply separated_delimited] ].
  assert (separatedBy (lastOr None (replaceAll timestampRe "TIMESTAMP" (replaceAll uuidRe "UUID" A))) = true /\
          separatedBy (first (replaceAll timestampRe "TIMESTAMP" (replaceAll uuidRe "UUID" B))) = true) as [HA3 HB3]
    by (apply separated_after_rule;
        [intros o Ho; now apply separated_delimited | simpl; lia
        | exact HA2 | exact HB2]).
  rewrite (replaceAll_around_after timestampMsRe "TIMESTAMP_MS");
    [| simpl; lia | now apply separated_delimited | now apply separated_delimited
     | apply inertAfter_timestampMs;
       [exact Hlen | exact Hall | now apply separated_delimited] ].
  assert (separatedBy (lastOr None (replaceAll timestampMsRe "TIMESTAMP_MS" (replaceAll timestampRe "TIMESTAMP" (replaceAll uuidRe "UUID" A)))) = true /\
          separatedBy (first (replaceAll timestampMsRe "TIMESTAMP_MS" (replaceAll timestampRe "TIMESTAMP" (replaceAll uuidRe "UUID" B)))) = true) as [HA4 HB4]
    by (apply separated_after_rule;
        [intros o Ho; now apply separated_delimited | simpl; lia
        | exact HA3 | exact HB3]).
  destruct d as [|a d]; [congruence|].
  rewrite (replaceAll_match_between numberRe "NUMBER");
    [| simpl; lia | now apply separated_delimited | now apply separated_delimited
     | apply matchAt_number; [exact Hall | now apply separated_delimited
                              | now apply separated_delimited] ].
  apply (spaces_rule_around _ "N" "UMBER"). reflexivity.
Qed.

Lemma normalize_around_number pre d post :
  d <> "" -> String.length d <> 13%nat -> allChars digit d = true ->
  separatedBy (lastOr None pre) = true -> separatedBy (first post) = true ->
  normalizeMessage (pre +:+ d +:+ post) =
  normalizeRules (trimStart (toLowerCase pre)) +:+ "NUMBER" +:+
  normalizeRules (trimEnd (toLowerCase post)).
Proof.
  intros Hne Hlen Hall Hpre Hpost.
  rewrite normalizeMessage_prepared, !toLowerCase_append.
  rewrite (toLowerCase_fixed digit d) by (exact digit_not_upper || exact Hall).
  rewrite trim_around;
    [| exact Hne
     | apply (allChars_impl digit); [|exact Hall];
       intros a Ha; now rewrite digit_not_space ].
  destruct (separated_prepared pre post Hpre Hpost) as [HA HB].
  now apply rules_around_number.
Qed.

Lemma append_inv_head s x y : s +:+ x = s +:+ y -> x = y.
Proof.
  induction s as [|a s IH]; [now rewrite !append_nil_l|].
  rewrite !append_cons. intros [= H]. now apply IH.
Qed.

(** The message enters the canonical string through its normal form
    only. *)
Lemma stableString_of_normal_form message message' category metadata :
  normalizeMessage message = normalizeMessage message' ->
  stableString message category metadata = stableString message' category metadata.
Proof.
  intros H. rewrite !stableString_spec_form. unfold specStableString. now rewrite H.
Qed.

Lemma generateStableId_of_normal_form message message' category metadata :
  normalizeMessage message = normalizeMessage message' ->
  generateStableId message category metadata =
  generateStableId message' category metadata.
Proof.
  intros H. unfold generateStableId.
  now rewrite (stableString_of_normal_form message message' category metadata H).
Qed.

(** X9: a run of digits that is no 13-digit integer and stands between
    separators (the ends of the message, or characters other than letters,
    digits, underscores, hyphens, colons and dots) normalises to [NUMBER],
    whatever its length, and the text before and after it is normalised on
    its own; fourteen digits and more are a number again, not a
    timestamp. *)
Theorem number_between_separators (pre d post : string) :
  d <> "" -> String.length d <> 13%nat -> allChars digit d = true ->
  separatedBy (lastOr None pre) = true -> separatedBy (first post) = true ->
  normalizeMessage (pre +:+ d +:+ post) =
    normalizeRules (trimStart (toLowerCase pre)) +:+ "NUMBER" +:+
    normalizeRules (trimEnd (toLowerCase post)) /\
  normalizeMessage d = "NUMBER".
Proof.
  intros Hne Hlen Hall Hpre Hpost. split; [now apply normalize_around_number|].
  pose proof (normalize_around_number "" d "" Hne Hlen Hall eq_refl eq_refl) as H.
  rewrite append_nil_l, append_empty_r in H. exact H.
Qed.

Lemma number_between_separators_witness :
  normalizeMessage "Retry 3 of 16725312000001 FAILED" =
    "retry NUMBER of NUMBER failed" /\
  normalizeMessage "16725312000001" = "NUMBER".
Proof.
  destruct (number_between_separators "Retry 3 of " "16725312000001" " FAILED")
    as [H1 H2]; [discriminate | simpl; lia | reflexivity | reflexivity | reflexivity |].
  split; [exact H1 | exact H2].
Defined.

(** X10: the value of a number in a message does not reach the
    identifier: two messages that differ only in a run of digits standing
    between separators have the same normal form and the same identifier,
    provided both runs have thirteen digits or neither has. *)
Theorem number_value_not_in_id
    (pre d d' post : string) (category : option string) (metadata : option Metadata) :
  d <> "" -> d' <> "" -> allChars digit d = true -> allChars digit d' = true ->
  (String.length d = 13%nat <-> String.length d' = 13%nat) ->
  separatedBy (lastOr None pre) = true -> separatedBy (first post) = true ->
  normalizeMessage (pre +:+ d +:+ post) = normalizeMessage (pre +:+ d' +:+ post) /\
  generateStableId (pre +:+ d +:+ post) category metadata =
  generateStableId (pre +:+ d' +:+ post) category metadata.
Proof.
  intros Hne Hne' Hall Hall' Hlen Hpre Hpost.
  assert (normalizeMessage (pre +:+ d +:+ post) =
          normalizeMessage (pre +:+ d' +:+ post)) as Heq.
  { destruct (decide (String.length d = 13%nat)) as [H13|H13].
    - rewrite !normalize_around_digits by (assumption || now apply Hlen). reflexivity.
    - rewrite !normalize_around_number by (assumption || tauto). reflexivity. }
  split; [exact Heq | now apply generateStableId_of_normal_form].
Qed.

Lemma number_value_not_in_id_witness :
  generateStableId "User 42 not found (attempt 3)" (Some "db") None =
  generateStableId "User 9000 not found (attempt 3)" (Some "db") None.
Proof.
  refine (proj2 (number_value_not_in_id "User " "42" "9000" " not found (attempt 3)"
                   (Some "db") None _ _ _ _ _ _ _));
    try reflexivity; try discriminate.
  simpl. lia.
Defined.

(** X11: a 13-digit integer is kept apart from every other number: in the
    same place of the same message, between separators, the two give
    different normal forms and different canonical strings. *)
Theorem thirteen_digits_set_apart
    (pre d d' post : string) (category : option string) (metadata : option Metadata) :
  String.length d = 13%nat -> allChars digit d = true ->
  d' <> "" -> String.length d' <> 13%nat -> allChars digit d' = true ->
  separatedBy (lastOr None pre) = true -> separatedBy (first post) = true ->
  normalizeMessage (pre +:+ d +:+ post) <> normalizeMessage (pre +:+ d' +:+ post) /\
  stableString (pre +:+ d +:+ post) category metadata <>
  stableString (pre +:+ d' +:+ post) category metadata.
Proof.
  intros Hlen Hall Hne' Hlen' Hall' Hpre Hpost.
  assert (normalizeMessage (pre +:+ d +:+ post) <>
          normalizeMessage (pre +:+ d' +:+ post)) as Hneq.
  { rewrite normalize_around_digits, normalize_around_number by assumption.
    intros H. apply append_inv_head in H. discriminate H. }
  split; [exact Hneq|].
  rewrite !stableString_spec_form. unfold specStableString.
  intros H. apply append_inv_head in H.
  rewrite normalize_around_digits, normalize_around_number in H by assumption.
  rewrite !append_assoc in H. apply append_inv_head in H. discriminate H.
Qed.

Lemma thirteen_digits_set_apart_witness :
  normalizeMessage "Expired at 1672531200000" <> normalizeMessage "Expired at 1672531200" /\
  stableString "Expired at 1672531200000" None None <>
  stableString "Expired at 1672531200" None None.
Proof.
  apply (thirteen_digits_set_apart "Expired at " "1672531200000" "1672531200" "" None None);
    reflexivity || discriminate.
Defined.

(** X12: the instant named by an ISO-8601 timestamp does not reach the
    identifier: two messages that differ only in a timestamp standing
    between separators, each of shape [YYYY-MM-DDThh:mm:ss] with an optional
    fraction of three digits and an optional Z, have the same normal form
    and the same identifier. *)
Theorem timestamp_value_not_in_id
    (pre core frac zone core' frac' zone' post : string)
    (category : option string) (metadata : option Metadata) :
  matchesClasses instantClasses core = true ->
  isFraction frac = true -> isZone zone = true ->
  matchesClasses instantClasses core' = true ->
  isFraction frac' = true -> isZone zone' = true ->
  separatedBy (lastOr None pre) = true -> separatedBy (first post) = true ->
  normalizeMessage (pre +:+ core +:+ frac +:+ zone +:+ post) =
  normalizeMessage (pre +:+ core' +:+ frac' +:+ zone' +:+ post) /\
  generateStableId (pre +:+ core +:+ frac +:+ zone +:+ post) category metadata =
  generateStableId (pre +:+ core' +:+ frac' +:+ zone' +:+ post) category metadata.
Proof.
  intros Hc Hf Hz Hc' Hf' Hz' Hpre Hpost.
  assert (normalizeMessage (pre +:+ core +:+ frac +:+ zone +:+ post) =
          normalizeMessage (pre +:+ core' +:+ frac' +:+ zone' +:+ post)) as Heq
    by (rewrite !normalize_around_timestamp by assumption; reflexivity).
  split; [exact Heq | now apply generateStableId_of_normal_form].
Qed.

Lemma timestamp_value_not_in_id_witness :
  generateStableId "Job failed at 2023-01-01T10:00:00.123Z (node 7)" None None =
  generateStableId "Job failed at 2024-12-31t23:59:59 (node 7)" None None.
Proof.
  exact (proj2 (timestamp_value_not_in_id "Job failed at "
                  "2023-01-01T10:00:00" ".123" "Z" "2024-12-31t23:59:59" "" ""
                  " (node 7)" None None
                  eq_refl eq_refl eq_refl eq_refl eq_refl eq_refl eq_refl eq_refl)).
Defined.

(** ** The rule for UUIDs *)

Lemma matchAt_uuid prev u rest :
  matchesClasses uuidClasses u = true ->
  matchAt uuidRe prev (u +:+ rest) = Some rest.
Proof.
  intros Hu. unfold uuidClasses in Hu. cbn [repeat app] in Hu.
  split_classes u Hu. unfold matchAt, uuidRe. run_matcher. reflexivity.
Qed.

(** The character classes of a UUID are closed under lowercasing and
    contain no white space. *)
Lemma uuid_classes_lower :
  Forall (fun cls : ascii -> bool => forall a, cls a = true -> cls (toLowerChar a) = true)
         uuidClasses.
Proof. repeat constructor; intros a; by_cases_on_char a. Qed.

Lemma uuid_classes_nonspace :
  Forall (fun cls : ascii -> bool =>
            forall a, cls a = true -> negb (isWhiteSpace a) = true)
         uuidClasses.
Proof. repeat constructor; intros a; by_cases_on_char a. Qed.

(** The rules of the normaliser around a UUID between separators. *)
Lemma rules_around_uuid A u B :
  matchesClasses uuidClasses u = true ->
  separatedBy (lastOr None A) = true -> separatedBy (first B) = true ->
  normalizeRules (A +:+ u +:+ B) =
  normalizeRules A +:+ "UUID" +:+ normalizeRules B.
Proof.
  intros Hu HA HB. unfold normalizeRules.
  pose proof (matchAt_uuid (lastOr None A) u B Hu) as Hm.
  destruct u as [|a u]; [discriminate Hu|].
  rewrite (replaceAll_match_between uuidRe "UUID");
    [| simpl; lia | now apply separated_delimited | now apply separated_delimited
     | exact Hm ].
  assert (separatedBy (lastOr None (replaceAll uuidRe "UUID" A)) = true /\
          separatedBy (first (replaceAll uuidRe "UUID" B)) = true) as [HA2 HB2]
    by (apply separated_after_rule;
        [intros o Ho; now apply separated_delimited | simpl; lia
        | exact HA | exact HB]).
  rewrite (replaceAll_around timestampRe "TIMESTAMP");
    [| simpl; lia | now apply separated_delimited | now apply separated_delimited
     | apply (inert_chars _ (fun a => negb (digit a))); [|reflexivity];
       intros prev c s Hc; apply matchAt_timestamp_nondigit;
       now apply negb_true_iff ].
  assert (separatedBy (lastOr None (replaceAll timestampRe "TIMESTAMP" (replaceAll uuidRe "UUID" A))) = true /\
          separatedBy (first (replaceAll timestampRe "TIMESTAMP" (replaceAll uuidRe "UUID" B))) = true) as [HA3 HB3]
    by (apply separated_after_rule;
        [intros o Ho; now apply separated_delimited | simpl; lia
        | exact HA2 | exact HB2]).
  rewrite (replaceAll_around timestampMsRe "TIMESTAMP_MS");
    [| simpl; lia | now apply separated_delimited | now apply separated_delimited
     | apply (inert_chars _ (fun a => negb (digit a))); [|reflexivity];
       intros prev c s Hc; apply matchAt_timestampMs_nondigit;
       now apply negb_true_iff ].
  assert (separatedBy (lastOr None (replaceAll timestampMsRe "TIMESTAMP_MS" (replaceAll timestampRe "TIMESTAMP" (replaceAll uuidRe "UUID" A)))) = true /\
          separatedBy (first (replaceAll timestampMsRe "TIMESTAMP_MS" (replaceAll timestampRe "TIMESTAMP" (replaceAll uuidRe "UUID" B)))) = true) as [HA4 HB4]
    by (apply separated_after_rule;
        [intros o Ho; now apply separated_delimited | simpl; lia
        | exact HA3 | exact HB3]).
  rewrite (replaceAll_around numberRe "NUMBER");
    [| simpl; lia | now apply separated_delimited | now apply separated_delimited
     | apply (inert_chars _ (fun a => negb (digit a))); [|reflexivity];
       intros prev c s Hc; now apply matchAt_number_nondigit ].
  apply (spaces_rule_around _ "U" "UID"). reflexivity.
Qed.

Lemma normalize_around_uuid pre u post :
  matchesClasses uuidClasses u = true ->
  separatedBy (lastOr None pre) = true -> separatedBy (first post) = true ->
  normalizeMessage (pre +:+ u +:+ post) =
  normalizeRules (trimStart (toLowerCase pre)) +:+ "UUID" +:+
  normalizeRules (trimEnd (toLowerCase post)).
Proof.
  intros Hu Hpre Hpost.
  rewrite normalizeMessage_prepared, !toLowerCase_append.
  pose proof (matchesClasses_lower _ _ uuid_classes_lower Hu) as Hu'.
  rewrite trim_around;
    [| destruct (toLowerCase u); [discriminate Hu' | discriminate]
     | exact (matchesClasses_allChars _ _ _ uuid_classes_nonspace Hu') ].
  destruct (separated_prepared pre post Hpre Hpost) as [HA HB].
  now apply rules_around_uuid.
Qed.

(** X13: a UUID between separators, in either case, normalises to [UUID]
    and the text before and after it is normalised on its own; so which
    UUID a message names does not reach the identifier: two messages that
    differ only in that UUID have the same normal form and the same
    identifier. *)
Theorem uuid_value_not_in_id
    (pre u u' post : string) (category : option string) (metadata : option Metadata) :
  matchesClasses uuidClasses u = true -> matchesClasses uuidClasses u' = true ->
  separatedBy (lastOr None pre) = true -> separatedBy (first post) = true ->
  normalizeMessage (pre +:+ u +:+ post) =
    normalizeRules (trimStart (toLowerCase pre)) +:+ "UUID" +:+
    normalizeRules (trimEnd (toLowerCase post)) /\
  normalizeMessage (pre +:+ u +:+ post) = normalizeMessage (pre +:+ u' +:+ post) /\
  generateStableId (pre +:+ u +:+ post) category metadata =
  generateStableId (pre +:+ u' +:+ post) category metadata.
Proof.
  intros Hu Hu' Hpre Hpost.
  assert (normalizeMessage (pre +:+ u +:+ post) =
          normalizeMessage (pre +:+ u' +:+ post)) as Heq
    by (rewrite !normalize_around_uuid by assumption; reflexivity).
  split; [now apply normalize_around_uuid|].
  split; [exact Heq | now apply generateStableId_of_normal_form].
Qed.

Lemma uuid_value_not_in_id_witness :
  normalizeMessage "Session 123E4567-E89B-12D3-A456-426614174000 expired" =
    "session UUID expired" /\
  generateStableId "Session 123E4567-E89B-12D3-A456-426614174000 expired" None None =
  generateStableId "Session 00000000-0000-4000-8000-00000000abcd expired" None None.
Proof.
  destruct (uuid_value_not_in_id "Session " "123E4567-E89B-12D3-A456-426614174000"
              "00000000-0000-4000-8000-00000000abcd" " expired" None None
              eq_refl eq_refl eq_refl eq_refl) as (H1 & _ & H3).
  split; [exact H1 | exact H3].
Defined.

(** ** Messages without identifiers, and blank messages *)

Lemma allChars_toLowerCase (P : ascii -> bool) s :
  (forall a, P a = true -> P (toLowerChar a) = true) ->
  allChars P s = true -> allChars P (toLowerCase s) = true.
Proof.
  intros HP. induction s as [|a s IH]; [reflexivity|]. cbn [allChars toLowerCase].
  intros H. apply andb_prop in H as [Ha Hs]. now rewrite (HP a Ha), IH.
Qed.

Lemma allChars_trimStart (P : ascii -> bool) s :
  allChars P s = true -> allChars P (trimStart s) = true.
Proof.
  induction s as [|a s IH]; [reflexivity|]. cbn [trimStart].
  destruct (isWhiteSpace a); [|exact (fun H => H)].
  cbn [allChars]. intros H. apply andb_prop in H as [_ Hs]. now apply IH.
Qed.

Lemma allChars_trimEnd (P : ascii -> bool) s :
  allChars P s = true -> allChars P (trimEnd s) = true.
Proof.
  induction s as [|a s IH]; [reflexivity|]. cbn [allChars trimEnd].
  intros H. apply andb_prop in H as [Ha Hs]. specialize (IH Hs).
  destruct (trimEnd s) as [|b t].
  - destruct (isWhiteSpace a); [reflexivity | cbn [allChars]; now rewrite Ha].
  - cbn [allChars] in *. now rewrite Ha, IH.
Qed.

Lemma allChars_trim (P : ascii -> bool) s :
  allChars P s = true -> allChars P (trim s) = true.
Proof. intros H. unfold trim. now apply allChars_trimEnd, allChars_trimStart. Qed.

(** A rule that finds no match returns its input. *)
Lemma replaceAll_inert re repl s :
  (1 <= minLen re)%nat -> inert re "" s -> replaceAll re repl s = s.
Proof.
  intros Hmin Hs. unfold replaceAll.
  rewrite <- (append_empty_r s) at 1.
  rewrite replaceFrom_inert by exact Hs.
  now rewrite replaceFrom_empty, append_empty_r.
Qed.

Lemma plainChar_lower a : plainChar a = true -> plainChar (toLowerChar a) = true.
Proof. by_cases_on_char a. Qed.

Lemma plainChar_nondigit a : plainChar a = true -> negb (digit a) = true.
Proof. by_cases_on_char a. Qed.

Lemma plainChar_nohyphen a : plainChar a = true -> negb (lit "-" a) = true.
Proof. by_cases_on_char a. Qed.

(** The four placeholder rules leave a text without digits and hyphens as
    it is. *)
Lemma placeholder_rules_plain s :
  allChars plainChar s = true ->
  replaceAll numberRe "NUMBER"
    (replaceAll timestampMsRe "TIMESTAMP_MS"
       (replaceAll timestampRe "TIMESTAMP" (replaceAll uuidRe "UUID" s))) = s.
Proof.
  intros Hs.
  pose proof (allChars_impl _ _ s plainChar_nondigit Hs) as Hnd.
  pose proof (allChars_impl _ _ s plainChar_nohyphen Hs) as Hnh.
  rewrite (replaceAll_inert uuidRe);
    [| simpl; lia | now apply inert_noHyphen ].
  rewrite (replaceAll_inert timestampRe);
    [| simpl; lia
     | apply (inert_chars _ (fun a => negb (digit a))); [|exact Hnd];
       intros prev c t Hc; apply matchAt_timestamp_nondigit; now apply negb_true_iff ].
  rewrite (replaceAll_inert timestampMsRe);
    [| simpl; lia
     | apply (inert_chars _ (fun a => negb (digit a))); [|exact Hnd];
       intros prev c t Hc; apply matchAt_timestampMs_nondigit; now apply negb_true_iff ].
  apply replaceAll_inert; [simpl; lia|].
  apply (inert_chars _ (fun a => negb (digit a))); [|exact Hnd].
  intros prev c t Hc. now apply matchAt_number_nondigit.
Qed.

(** X14: a message without digits and without hyphens contains nothing
    the placeholder rules replace: its normal form is the message in lower
    case, without the white space at its ends, each run of white space
    inside it turned into one space. *)
Theorem normalizeMessage_plain_text (message : string) :
  allChars plainChar message = true ->
  normalizeMessage message = collapseSpaces (trim (toLowerCase message)).
Proof.
  intros Hm. rewrite normalizeMessage_prepared. unfold normalizeRules.
  rewrite placeholder_rules_plain
    by (apply allChars_trim, allChars_toLowerCase; [exact plainChar_lower | exact Hm]).
  unfold replaceAll, collapseSpaces.
  now apply (replaceFrom_spaces_collapse (String.length (trim (toLowerCase message)))).
Qed.

Lemma normalizeMessage_plain_text_witness :
  normalizeMessage "  Connection   REFUSED by  peer " = "connection refused by peer".
Proof.
  exact (normalizeMessage_plain_text "  Connection   REFUSED by  peer " eq_refl).
Defined.

Lemma whiteSpace_not_upper a : isWhiteSpace a = true -> toLowerChar a = a.
Proof. by_cases_on_char a. Qed.

Lemma trimStart_blank s : allChars isWhiteSpace s = true -> trimStart s = "".
Proof.
  induction s as [|a s IH]; [reflexivity|]. cbn [allChars trimStart].
  intros H. apply andb_prop in H as [Ha Hs]. rewrite Ha. now apply IH.
Qed.

(** X15: a message made of white space only has the empty normal form,
    like the empty message that the guard at the head of [normalizeMessage]
    returns early for, and so it has the identifier of the empty message. *)
Theorem blank_message_is_empty
    (message : string) (category : option string) (metadata : option Metadata) :
  allChars isWhiteSpace message = true ->
  normalizeMessage message = "" /\
  generateStableId message category metadata = generateStableId "" category metadata.
Proof.
  intros Hm.
  assert (normalizeMessage message = normalizeMessage "") as Heq.
  { rewrite !normalizeMessage_prepared.
    rewrite (toLowerCase_fixed isWhiteSpace message whiteSpace_not_upper Hm).
    unfold trim. now rewrite (trimStart_blank message Hm). }
  split; [exact Heq | now apply generateStableId_of_normal_form].
Qed.

Lemma blank_message_is_empty_witness :
  normalizeMessage "   " = "" /\
  generateStableId "   " (Some "db") None = generateStableId "" (Some "db") None.
Proof. exact (blank_message_is_empty "   " (Some "db") None eq_refl). Defined.

(** ** What the canonical string does not keep apart *)

Lemma toLowerChar_notUpper a : notUpper (toLowerChar a) = true.
Proof. by_cases_on_char a. Qed.

Lemma notUpper_fixed a : notUpper a = true -> toLowerChar a = a.
Proof. by_cases_on_char a. Qed.

Lemma toLowerCase_notUpper s : allChars notUpper (toLowerCase s) = true.
Proof.
  induction s as [|a s IH]; [reflexivity|]. cbn [toLowerCase allChars].
  now rewrite toLowerChar_notUpper, IH.
Qed.

Lemma canonText_notUpper s : allChars notUpper (canonText s) = true.
Proof. unfold canonText. apply allChars_trim, toLowerCase_notUpper. Qed.

(** A text in lower case without white space at its ends is its own
    canonical form. *)
Lemma canonText_fixed s :
  allChars notUpper s = true ->
  isSpaceAt (first s) = false -> isSpaceAt (lastOr None s) = false ->
  canonText s = s.
Proof.
  intros Hl Hf Hz. unfold canonText.
  rewrite (toLowerCase_fixed notUpper s notUpper_fixed Hl).
  now apply trim_of_trimmed.
Qed.

Lemma canonText_idempotent s : canonText (canonText s) = canonText s.
Proof.
  apply canonText_fixed; [apply canonText_notUpper | |]; unfold canonText; apply trim_ends.
Qed.

Lemma allChars_concat (P : ascii -> bool) sep l :
  allChars P sep = true -> Forall (fun e => allChars P e = true) l ->
  allChars P (String.concat sep l) = true.
Proof.
  intros Hsep. induction l as [|e l IH]; intros Hl; [reflexivity|].
  inversion Hl as [|? ? He Hl']; subst. cbn [String.concat].
  destruct l as [|e' l]; [exact He|].
  rewrite !allChars_append, He, Hsep. now rewrite (IH Hl').
Qed.

Lemma lastOr_concat l : forall p,
  isSpaceAt p = false ->
  Forall (fun e => forall q, isSpaceAt q = false -> isSpaceAt (lastOr q e) = false) l ->
  isSpaceAt (lastOr p (String.concat "," l)) = false.
Proof.
  induction l as [|e l IH]; intros p Hp Hl; [exact Hp|].
  inversion Hl as [|? ? He Hl']; subst. cbn [String.concat].
  destruct l as [|e' l]; [now apply He|].
  rewrite !lastOr_append. now apply IH.
Qed.

Lemma allowed_key_text key :
  key ∈ sortedAllowedKeys -> allChars notUpper key = true.
Proof.
  unfold sortedAllowedKeys. rewrite !elem_of_cons, elem_of_nil.
  intros [->|[->|[->|[->|[->|[->|[]]]]]]]; reflexivity.
Qed.

Lemma specEntry_text (m : Metadata) key :
  key ∈ sortedAllowedKeys ->
  allChars notUpper (specEntry m key) = true /\
  (forall q, isSpaceAt q = false -> isSpaceAt (lastOr q (specEntry m key)) = false).
Proof.
  intros Hk. unfold specEntry.
  change (trim (toLowerCase (toString (getProp m key))))
    with (canonText (toString (getProp m key))).
  set (y := canonText (toString (getProp m key))).
  assert (allChars notUpper y = true) as Hy by apply canonText_notUpper. split.
  - rewrite !allChars_append, (allowed_key_text key Hk), Hy. reflexivity.
  - intros q Hq. rewrite !lastOr_append. destruct (decide (y = "")) as [->|Hne].
    + reflexivity.
    + rewrite (lastOr_nonempty _ None y Hne). unfold y, canonText. apply trim_ends.
Qed.

Lemma first_append s1 s2 : first (s1 +:+ s2) = match s1 with
                                               | EmptyString => first s2
                                               | String a _ => Some a
                                               end.
Proof. destruct s1; reflexivity. Qed.

(** The category followed by the metadata part is its own canonical
    form. *)
Lemma canonText_category_metadata category (m : Metadata) :
  canonText (canonText category +:+ metadataText m) =
  canonText category +:+ metadataText m.
Proof.
  unfold metadataText. destruct (specKeys m) as [|k keys] eqn:Hkeys.
  - rewrite append_empty_r. apply canonText_idempotent.
  - assert (Forall (fun key => key ∈ sortedAllowedKeys) (k :: keys)) as Hall.
    { rewrite <- Hkeys. apply Forall_forall. intros key Hin.
      apply specKeys_spec in Hin as [Hin _].
      now apply allowedKeys_sorted. }
    set (entries := map (specEntry m) (k :: keys)).
    assert (Forall (fun e => allChars notUpper e = true) entries) as Hlow.
    { unfold entries. apply Forall_map. eapply Forall_impl; [exact Hall|].
      intros key Hk. now apply specEntry_text. }
    assert (Forall (fun e => forall q, isSpaceAt q = false ->
                                       isSpaceAt (lastOr q e) = false) entries) as Hend.
    { unfold entries. apply Forall_map. eapply Forall_impl; [exact Hall|].
      intros key Hk. now apply specEntry_text. }
    apply canonText_fixed.
    + rewrite !allChars_append, canonText_notUpper.
      now rewrite (allChars_concat notUpper "," entries eq_refl Hlow).
    + rewrite first_append. destruct (canonText category) as [|a x] eqn:Hx; [reflexivity|].
      pose proof (proj1 (trim_ends (toLowerCase category))) as Hf.
      fold (canonText category) in Hf. rewrite Hx in Hf. exact Hf.
    + rewrite !lastOr_append. now apply lastOr_concat.
Qed.

Lemma specKeys_empty : specKeys ∅ = [].
Proof.
  destruct (specKeys ∅) as [|k keys] eqn:Hkeys; [reflexivity|exfalso].
  assert (k ∈ specKeys ∅) as Hin by (rewrite Hkeys; apply list_elem_of_here).
  apply specKeys_spec in Hin as [_ (v & Hv & _)].
  rewrite lookup_empty in Hv. discriminate Hv.
Qed.

(** X16: the canonical string does not keep the category and the
    metadata apart: a call without metadata whose category is the canonical
    category of another call followed by the text of that call's metadata
    part, [|metadata:k1:v1,...], builds the same canonical string and gets
    the same identifier as that call. *)
Theorem category_can_stand_for_metadata
    (message category : string) (m : Metadata) :
  let category' := canonText category +:+ metadataText m in
  stableString message (Some category') None =
    stableString message (Some category) (Some m) /\
  generateStableId message (Some category') None =
    generateStableId message (Some category) (Some m).
Proof.
  cbv zeta.
  assert (stableString message (Some (canonText category +:+ metadataText m)) None =
          stableString message (Some category) (Some m)) as Heq.
  { rewrite !stableString_spec_form. unfold specStableString. cbv zeta.
    cbn [default from_option id]. rewrite specKeys_empty.
    fold (canonText (canonText category +:+ metadataText m)).
    rewrite canonText_category_metadata. fold (canonText category).
    fold (metadataText m). now rewrite append_empty_r, ?append_assoc. }
  split; [exact Heq|]. unfold generateStableId. now rewrite Heq.
Qed.

(** An instance: the category text ["db|metadata:code:404"] against the
    category ["DB"] with the metadata [{code: 404}]. *)
Lemma imitation_of_code_404 :
  generateStableId "not found" (Some "db|metadata:code:404") None =
  generateStableId "not found" (Some "DB") (Some {[ "code" := VNumber 404 ]}).
Proof. vm_compute. reflexivity. Qed.

(** ** The default category of the two entry points *)

(** X17: [createStableError] without a category derives the identifier
    with the category ["general"], whereas [generateStableId] without a
    category uses the empty category: for the same message and metadata the
    two hash different canonical strings, so the identifier of an error
    made without a category is to be recomputed with the category
    ["general"], not with none. *)
Theorem default_category_of_entry_points
    (host : Host.t) (src : messageOrError) (options : Options.t) :
  Options.category options = None ->
  StableError.id (createStableError host src options) =
    generateStableId (sourceMessage src) (Some "general") (Options.metadata options) /\
  stableString (sourceMessage src) (Some "general") (Options.metadata options) <>
    stableString (sourceMessage src) None (Options.metadata options).
Proof.
  intros Hc. split.
  - rewrite createStableError_id, Hc. reflexivity.
  - rewrite !stableString_spec_form. unfold specStableString. cbv zeta.
    intros H. do 3 apply append_inv_head in H.
    apply (f_equal String.length) in H. rewrite !length_append in H.
    simpl in H. lia.
Qed.

Lemma default_category_of_entry_points_witness :
  StableError.id (createStableError Sample.host1 (OfString "User not found") Options.empty) =
    generateStableId "User not found" (Some "general") None /\
  stableString "User not found" (Some "general") None <>
    stableString "User not found" None None.
Proof.
  exact (default_category_of_entry_points Sample.host1 (OfString "User not found")
           Options.empty eq_refl).
Defined.
